(** * xo-server-auth-ldap: the LDAP authentication plugin

    A shallow embedding of the plugin module (the rendering of the search
    filter, [configure] and [_authenticate]) together with the properties
    the specification states about it.

    Conventions of the embedding
    - JavaScript strings are [string]s; [undefined] is [None].
    - A thrown value is an [Error]; a computation that may throw returns
      [Error + A] ([inl] = thrown, [inr] = normal completion).
    - Calls on the LDAP client and on the logger are recorded, in the order
      they happen, in a trace of [Event]s that is threaded through the code.
    - The directory server, the file system and [JSON.stringify] are an
      explicit environment; awaited promises are assumed to settle, so that
      every run of the model ends.  The logger and [JSON.stringify] are
      assumed not to throw.

    Part I holds the definitions: first the module, function by function,
    then the notions the properties are stated with, then a sample
    directory.  Part II holds the properties. *)

From Stdlib Require Import String Ascii List Lia.
From stdpp Require Import gmap strings list pretty.

Open Scope string_scope.
Open Scope list_scope.

(* ===================================================================== *)
(** * Part I: definitions *)
(* ===================================================================== *)

(** ** Errors *)

(** The module throws plain [Error]s ([new Error(message)]); the LDAP client
    rejects with errors of its own.  [kind] tells them apart the way the
    specification's taxonomy does; the code itself never looks at it. *)
Inductive ErrorKind :=
  | GenericError      (* new Error(...) thrown by this module *)
  | TypeError         (* raised by the JavaScript runtime *)
  | BindRejected      (* the server refused the credentials of a bind *)
  | ConnectionError   (* transport-level failure *)
  | OtherError.       (* any other failure: client, file system *)

Record Error := mkError { kind : ErrorKind; message : string }.

Definition new_Error (msg : string) : Error := mkError GenericError msg.

(** ** Strings *)

(** [strip_prefix p s] is [Some t] when [s = p ++ t]. *)
Fixpoint strip_prefix (p s : string) : option string :=
  match p, s with
  | EmptyString, _ => Some s
  | String a p', String b s' =>
      if Ascii.eqb a b then strip_prefix p' s' else None
  | String _ _, EmptyString => None
  end.

(** Characters of a string, as a list. *)
Fixpoint chars (s : string) : list ascii :=
  match s with
  | EmptyString => []
  | String c s' => c :: chars s'
  end.

(** ** The placeholder pattern

    [const VAR_RE = /\{\{([^}]+)\}\}/g] *)

(** [[^}]+], greedy: the longest prefix without a closing brace, and what
    follows it.  Backtracking to a shorter prefix never helps, because the
    character after a shorter prefix is not a closing brace. *)
Fixpoint scan_name (s : string) : string * string :=
  match s with
  | EmptyString => (EmptyString, EmptyString)
  | String c s' =>
      if Ascii.eqb c "}" then (EmptyString, s)
      else let '(n, r) := scan_name s' in (String c n, r)
  end.

(** One attempt to match [VAR_RE] at the start of [s]: the captured group
    and the text after the match. *)
Definition VAR_RE_exec (s : string) : option (string * string) :=
  match strip_prefix "{{" s with
  | Some t =>
      let '(group, r) := scan_name t in
      match group, strip_prefix "}}" r with
      | String _ _, Some rest => Some (group, rest)
      | _, _ => None
      end
  | None => None
  end.

(** The pieces [String.prototype.replace] cuts a string into with a global
    pattern: the matches, leftmost first and without overlap, and the
    characters between them. *)
Inductive Segment :=
  | Lit (c : ascii)
  | Var (group : string).

(** The match-collecting loop of [replace]: try the pattern at the current
    position; on a match continue after it, otherwise step one character.
    [fuel] bounds the number of iterations; the length of the string is
    enough (see [segments_fuel_enough]). *)
Fixpoint segments_fuel (fuel : nat) (s : string) : list Segment :=
  match fuel with
  | O => []
  | S fuel' =>
      match VAR_RE_exec s with
      | Some (group, rest) => Var group :: segments_fuel fuel' rest
      | None =>
          match s with
          | EmptyString => []
          | String c s' => Lit c :: segments_fuel fuel' s'
          end
      end
  end.

Definition segments (s : string) : list Segment :=
  segments_fuel (String.length s) s.

(** The substitution pass of [replace]: the callback is called once per
    match, from left to right; what it returns replaces the match, and a
    throw from it aborts the whole call. *)
Fixpoint substitute (fn : string -> Error + string) (segs : list Segment)
  : Error + string :=
  match segs with
  | [] => inr EmptyString
  | Lit c :: tl =>
      match substitute fn tl with
      | inr out => inr (String c out)
      | inl e => inl e
      end
  | Var group :: tl =>
      match fn group with
      | inr v =>
          match substitute fn tl with
          | inr out => inr (v +:+ out)
          | inl e => inl e
          end
      | inl e => inl e
      end
  end.

(** [s.replace(VAR_RE, fn)] *)
Definition String_replace (s : string) (fn : string -> Error + string)
  : Error + string :=
  substitute fn (segments s).

(** Does the pattern match anywhere in [s]? ([VAR_RE.test(s)]) *)
Fixpoint VAR_RE_test (s : string) : bool :=
  match VAR_RE_exec s with
  | Some _ => true
  | None =>
      match s with
      | EmptyString => false
      | String _ s' => VAR_RE_test s'
      end
  end.

(** The names of the placeholders of a template, in order. *)
Definition placeholders (template : string) : list string :=
  omap (fun seg => match seg with Var g => Some g | Lit _ => None end)
       (segments template).

(** ** Escaping of filter values *)

(** Modelled from the spec: [escape] is imported from
    [ldapjs/lib/filters/escape], which is not among the sources.  It
    neutralises the characters with a special meaning in a search filter:
    each parenthesis, asterisk, backslash and null byte becomes a backslash
    followed by the two hexadecimal digits of its code; every other
    character is kept.  (The specification also names white space at the
    ends of a value, "per protocol convention"; the syntax of filters asks
    nothing for it, and it is kept.) *)
Definition escape_char (c : ascii) : string :=
  if Ascii.eqb c "*" then "\2a"
  else if Ascii.eqb c "(" then "\28"
  else if Ascii.eqb c ")" then "\29"
  else if Ascii.eqb c "\" then "\5c"
  else if Ascii.eqb c "000" then "\00"
  else String c EmptyString.

Fixpoint escape (inp : string) : string :=
  match inp with
  | EmptyString => EmptyString
  | String c rest => escape_char c +:+ escape rest
  end.

(** ** evalFilter *)

(** The members an object inherits from [Object.prototype], each with
    the text that [String] gives for it (native functions as Node prints
    them). *)
Definition native_function (name : string) : string :=
  "function " +:+ name +:+ "() { [native code] }".

Definition Object_prototype (name : string) : option string :=
  if String.eqb name "constructor" then Some (native_function "Object")
  else if String.eqb name "__proto__" then Some "[object Object]"
  else if String.eqb name "toString"
       || String.eqb name "toLocaleString"
       || String.eqb name "valueOf"
       || String.eqb name "hasOwnProperty"
       || String.eqb name "isPrototypeOf"
       || String.eqb name "propertyIsEnumerable"
       || String.eqb name "__defineGetter__"
       || String.eqb name "__defineSetter__"
       || String.eqb name "__lookupGetter__"
       || String.eqb name "__lookupSetter__"
  then Some (native_function name)
  else None.

(** A value read from the variables: a string, or something else, kept as
    the text [String] gives for it. *)
Inductive JsValue :=
  | JsString (s : string)
  | JsOther (text : string).

(** [vars[name]]: [vars] is a JavaScript object used as a map from names
    to string values, the map holding its own properties; a name that is
    not among them is looked up in [Object.prototype]; [None] stands for
    [undefined]. *)
Definition get_property (vars : gmap string string) (name : string)
  : option JsValue :=
  match vars !! name with
  | Some value => Some (JsString value)
  | None => JsOther <$> Object_prototype name
  end.

(** Modelled from the spec: what [replace] inserts for [escape(value)].
    The specification describes [escape] on strings; of a value that is
    not a string the function of ldapjs gives back the value itself, and
    [replace] makes a string of what its callback returns. *)
Definition escape_value (value : JsValue) : string :=
  match value with
  | JsString s => escape s
  | JsOther text => text
  end.

Definition evalFilter (filter : string) (vars : gmap string string)
  : Error + string :=
  String_replace filter (fun name =>
    match get_property vars name with
    | None => inl (new_Error ("invalid variable: " +:+ name))
    | Some value => inr (escape_value value)
    end).

(** ** Configuration

    [DEFAULTS], [configure] and the state the plugin keeps. *)

Record DefaultsT := { DEFAULTS_checkCertificate : bool; DEFAULTS_filter : string }.

Definition DEFAULTS : DefaultsT :=
  {| DEFAULTS_checkCertificate := true;
     DEFAULTS_filter := "(uid={{name}})" |}.

(** [conf.bind], also what [this._credentials] holds: [dn] and
    [password] (named [bind_password] here, apart from the password of the
    user). *)
Record BindConf := { dn : string; bind_password : string }.

(** The configuration object, shaped as [configurationSchema] says; a field
    that may be missing is an [option]. *)
Record Conf := {
  uri : string;
  certificateAuthorities : option (list string);
  checkCertificate : option bool;
  bind : option BindConf;
  base : string;
  filter : option string;
}.

Record TlsOptions := {
  rejectUnauthorized : option bool;
  ca : option (list string);
}.

Record ClientOpts := {
  url : string;
  maxConnections : nat;
  tlsOptions : TlsOptions;
  bindDN : option string;
  bindCredentials : option string;
}.

(** The fields of an [AuthLdap] instance; all [undefined] after the
    constructor. *)
Record AuthLdap := {
  _clientOpts : option ClientOpts;
  _credentials : option BindConf;
  _searchBase : option string;
  _searchFilter : option string;
}.

Definition constructor : AuthLdap :=
  {| _clientOpts := None; _credentials := None;
     _searchBase := None; _searchFilter := None |}.

(** [x = d] in a destructuring pattern: the default replaces [undefined]. *)
Definition with_default {A} (d : A) (x : option A) : A :=
  match x with Some v => v | None => d end.

(** Assignments to properties of the options objects. *)
Definition set_bind (b : BindConf) (o : ClientOpts) : ClientOpts :=
  {| url := url o; maxConnections := maxConnections o;
     tlsOptions := tlsOptions o;
     bindDN := Some (dn b); bindCredentials := Some (bind_password b) |}.

Definition set_tlsOptions (t : TlsOptions) (o : ClientOpts) : ClientOpts :=
  {| url := url o; maxConnections := maxConnections o;
     tlsOptions := t;
     bindDN := bindDN o; bindCredentials := bindCredentials o |}.

Definition set_rejectUnauthorized (b : bool) (t : TlsOptions) : TlsOptions :=
  {| rejectUnauthorized := Some b; ca := ca t |}.

Definition set_ca (contents : list string) (t : TlsOptions) : TlsOptions :=
  {| rejectUnauthorized := rejectUnauthorized t; ca := Some contents |}.

(** [await Promise.all(paths.map(path => readFile(path)))]: [map] calls
    [readFile] on the paths in their order, and the first call that throws
    ends it; otherwise the result holds what the calls gave, in the order
    of the paths.  [readFile path] stands for what [readFile(path)] does:
    the error it throws, or what awaiting its result gives. *)
Fixpoint read_all (readFile : string -> Error + string) (paths : list string)
  : Error + list string :=
  match paths with
  | [] => inr []
  | path :: rest =>
      match readFile path, read_all readFile rest with
      | inr content, inr contents => inr (content :: contents)
      | inl e, _ => inl e
      | _, inl e => inl e
      end
  end.

(** [async configure(conf)]: the outcome and the instance afterwards.
    [this._clientOpts] and the local [clientOpts] are one object, so the
    assignments to [clientOpts] and to its [tlsOptions] show in
    [this._clientOpts].  [rejectUnauthorized] is set before the
    certificates are read and the three other fields of [this] are
    assigned after: a failed read leaves the new [_clientOpts], without
    [ca], and the old other fields. *)
Definition configure (readFile : string -> Error + string)
    (this : AuthLdap) (conf : Conf) : (Error + unit) * AuthLdap :=
  let clientOpts :=
    {| url := uri conf; maxConnections := 5;
       tlsOptions := {| rejectUnauthorized := None; ca := None |};
       bindDN := None; bindCredentials := None |} in
  let clientOpts :=
    match bind conf with
    | Some bind => set_bind bind clientOpts
    | None => clientOpts
    end in
  let tlsOptions :=
    set_rejectUnauthorized
      (with_default (DEFAULTS_checkCertificate DEFAULTS) (checkCertificate conf))
      (tlsOptions clientOpts) in
  let assign (tlsOptions : TlsOptions) :=
    (inr tt,
     {| _clientOpts := Some (set_tlsOptions tlsOptions clientOpts);
        _credentials := bind conf;
        _searchBase := Some (base conf);
        _searchFilter :=
          Some (with_default (DEFAULTS_filter DEFAULTS) (filter conf)) |}) in
  match certificateAuthorities conf with
  | Some paths =>
      match read_all readFile paths with
      | inr contents => assign (set_ca contents tlsOptions)
      | inl e =>
          (inl e,
           {| _clientOpts := Some (set_tlsOptions tlsOptions clientOpts);
              _credentials := _credentials this;
              _searchBase := _searchBase this;
              _searchFilter := _searchFilter this |})
      end
  | None => assign tlsOptions
  end.

(** ** The directory client and its environment *)

(** [entry.json] of a search entry: its distinguished name and its
    attributes. *)
Record Entry := {
  objectName : string;
  attributes : list (string * list string);
}.

(** What a search response emits: the ['searchEntry'] events, then either
    ['end'] with a status or ['error']. *)
Record Response := {
  searchEntry : list Entry;
  end_ : Error + N;
}.

(** Everything outside the module that a call of [_authenticate] depends
    on.  [bind_reply k dn password] is the server's answer to the bind that
    is the [k]-th (from 0) on the client; [None] means accepted. *)
Record World := {
  createClient_throws : option ClientOpts -> option Error;
  connect_reply : option Error;
  bind_reply : nat -> string -> string -> option Error;
  search_reply : option string -> string -> Error + Response;
  JSON_stringify : Entry -> string;
}.

(** What the module does to the outside, in order. *)
Inductive Event :=
  | Logger (msg : string)
  | CreateClient (opts : option ClientOpts)
  | Connect
  | Bind (dn password : string) (reply : option Error)
  | Search (base : option string) (scope filter : string)
  | Unbind.

Definition Trace := list Event.

(** Computations that may throw and that extend the trace. *)
Definition M (A : Type) : Type := Trace -> (Error + A) * Trace.

Definition ret {A} (a : A) : M A := fun tr => (inr a, tr).

Definition throw {A} (e : Error) : M A := fun tr => (inl e, tr).

Definition bindM {A B} (m : M A) (k : A -> M B) : M B := fun tr =>
  match m tr with
  | (inr a, tr') => k a tr'
  | (inl e, tr') => (inl e, tr')
  end.

Notation "x <- m ;; k" := (bindM m (fun x => k))
  (at level 100, m at next level, right associativity).
Notation "m ;;; k" := (bindM m (fun _ => k))
  (at level 100, right associativity).

Definition emit (ev : Event) : M unit := fun tr => (inr tt, tr ++ [ev]).

(** [try { body } catch (error) { handler }] *)
Definition try_catch {A} (body : M A) (handler : Error -> M A) : M A := fun tr =>
  match body tr with
  | (inr a, tr') => (inr a, tr')
  | (inl e, tr') => handler e tr'
  end.

(** [try { body } finally { final }]: [final] runs whatever [body] did; the
    outcome is that of [body] unless [final] itself throws. *)
Definition try_finally {A} (body : M A) (final : M unit) : M A := fun tr =>
  match body tr with
  | (r, tr') =>
      match final tr' with
      | (inr _, tr'') => (r, tr'')
      | (inl e, tr'') => (inl e, tr'')
      end
  end.

Definition lift {A} (r : Error + A) : M A := fun tr => (r, tr).

Definition is_Bind (ev : Event) : bool :=
  match ev with Bind _ _ _ => true | _ => false end.

(** The result of [_authenticate]: [{ username }] or [null]. *)
Inductive AuthResult :=
  | Authenticated (username : string)
  | Null.

(** The argument of [_authenticate], shaped as [testSchema] says: strings,
    [None] when the property is missing. *)
Record Credentials := {
  username : option string;
  password : option string;
}.

(** Credentials with both properties. *)
Definition both (u p : string) : Credentials :=
  {| username := Some u; password := Some p |}.

Section Authenticate.

Variable w : World.

Definition logger (msg : string) : M unit := emit (Logger msg).

(** [createClient(opts)] *)
Definition createClient (opts : option ClientOpts) : M unit :=
  emit (CreateClient opts);;;
  match createClient_throws w opts with
  | Some e => throw e
  | None => ret tt
  end.

(** [await eventToPromise(client, 'connect')] *)
Definition client_connect : M unit :=
  emit Connect;;;
  match connect_reply w with
  | Some e => throw e
  | None => ret tt
  end.

(** [await bind(dn, password)], [bind] being the promisified
    [client.bind]. *)
Definition client_bind (dn password : string) : M unit := fun tr =>
  let reply := bind_reply w (length (List.filter is_Bind tr)) dn password in
  (match reply with Some e => inl e | None => inr tt end,
   tr ++ [Bind dn password reply]).

(** [await search(base, { scope: 'sub', filter })] *)
Definition client_search (base : option string) (filter : string) : M Response :=
  emit (Search base "sub" filter);;;
  lift (search_reply w base filter).

(** [client.unbind()] *)
Definition client_unbind : M unit := emit Unbind.

(** The ['searchEntry'] listener, once per entry:
    [logger('.'); entries.push(entry.json)]. *)
Fixpoint on_searchEntry (emitted : list Entry) : M (list Entry) :=
  match emitted with
  | [] => ret []
  | entry :: rest =>
      logger ".";;;
      entries <- on_searchEntry rest;;
      ret (entry :: entries)
  end.

(** [evalFilter(this._searchFilter, { name: username })];
    [undefined.replace] is a [TypeError]. *)
Definition evalFilter_this (searchFilter : option string) (username : string)
  : Error + string :=
  match searchFilter with
  | Some f => evalFilter f {[ "name" := username ]}
  | None => inl (mkError TypeError "Cannot read property 'replace' of undefined")
  end.

(** The loop over the entries.  [Some result] is a [return result] taken
    inside the loop; [None] means the loop ran to its end. *)
Fixpoint try_entries (username password : string) (entries : list Entry)
  : M (option AuthResult) :=
  match entries with
  | [] => ret None
  | entry :: rest =>
      returned <-
        try_catch
          (logger ("attempting to bind as " +:+ objectName entry);;;
           client_bind (objectName entry) password;;;
           logger ("successfully bound as " +:+ objectName entry
                   +:+ " => " +:+ username +:+ " authenticated");;;
           logger (JSON_stringify w entry);;;
           ret (Some (Authenticated username)))
          (fun error =>
             logger ("failed to bind as " +:+ objectName entry
                     +:+ ": " +:+ message error);;;
             ret None);;
      match returned with
      | Some result => ret (Some result)
      | None => try_entries username password rest
      end
  end.

(** [async _authenticate({ username, password }, logger = noop)] *)
Definition _authenticate (this : AuthLdap) (credentials : Credentials)
  : M AuthResult :=
  match username credentials, password credentials with
  | Some username, Some password =>
      createClient (_clientOpts this);;;
      try_finally
        (client_connect;;;
         (* Bind if necessary. *)
         match _credentials this with
         | Some credentials =>
             logger ("attempting to bind with as " +:+ dn credentials +:+ "...");;;
             client_bind (dn credentials) (bind_password credentials);;;
             logger ("successfully bound as " +:+ dn credentials)
         | None => ret tt
         end;;;
         (* Search for the user. *)
         logger "searching for entries...";;;
         filter <- lift (evalFilter_this (_searchFilter this) username);;
         response <- client_search (_searchBase this) filter;;
         entries <- on_searchEntry (searchEntry response);;
         status <- lift (end_ response);;
         (if N.eqb status 0 then ret tt
          else throw (new_Error ("unexpected search response status: "
                                 +:+ pretty status)));;;
         logger (pretty (length entries) +:+ " entries found");;;
         (* Try to find an entry which can be bind with the given password. *)
         returned <- try_entries username password entries;;
         match returned with
         | Some result => ret result
         | None =>
             logger ("could not authenticate " +:+ username);;;
             ret Null
         end)
        client_unbind
  | _, _ =>
      logger "require `username` and `password` to authenticate!";;;
      ret Null
  end.

(** A call of [_authenticate] from an empty trace. *)
Definition run (this : AuthLdap) (credentials : Credentials)
  : (Error + AuthResult) * Trace :=
  _authenticate this credentials [].

(** The outcome of such a call, and what it did. *)
Definition result_of (this : AuthLdap) (credentials : Credentials)
  : Error + AuthResult :=
  fst (run this credentials).

Definition trace_of (this : AuthLdap) (credentials : Credentials) : Trace :=
  snd (run this credentials).

(** [test({ username, password })] *)
Definition test (this : AuthLdap) (credentials : Credentials) : M unit :=
  result <- _authenticate this credentials;;
  match result with
  | Null => throw (new_Error "could not authenticate user")
  | Authenticated _ => ret tt
  end.

End Authenticate.

(* --------------------------------------------------------------------- *)
(** ** Notions used to state the properties

    Nothing below is code of the module. *)
(* --------------------------------------------------------------------- *)

(** *** About the template engine *)

(** A string is a placeholder name when it is not empty and has no closing
    brace. *)
Definition placeholder_name (g : string) : Prop :=
  g <> "" /\ "}"%char ∉ chars g.

(** What the specification says [replace] does with [VAR_RE]: going through the
    template from the left, a substring made of two opening braces, one or
    more characters other than a closing brace, and two closing braces is
    replaced; a character at which no such substring starts is copied. *)
Inductive Replaces : string -> list Segment -> Prop :=
  | Replaces_end : Replaces "" []
  | Replaces_placeholder g rest segs :
      placeholder_name g ->
      Replaces rest segs ->
      Replaces ("{{" +:+ g +:+ "}}" +:+ rest) (Var g :: segs)
  | Replaces_copy c s segs :
      (forall g rest, placeholder_name g ->
                      String c s <> "{{" +:+ g +:+ "}}" +:+ rest) ->
      Replaces s segs ->
      Replaces (String c s) (Lit c :: segs).

(** [s] begins with [p]. *)
Definition starts_with (p s : string) : bool :=
  match strip_prefix p s with Some _ => true | None => false end.

(** After two opening braces, [t] completes a match of [VAR_RE]. *)
Definition closes (t : string) : bool :=
  match scan_name t with
  | (String _ _, r) => starts_with "}}" r
  | (EmptyString, _) => false
  end.

(** A value that cannot take part in a placeholder: not empty, no brace. *)
Definition plain (e : string) : Prop :=
  e <> "" /\ forall c, c ∈ chars e -> c <> "{"%char /\ c <> "}"%char.

(** The characters that structure a filter. *)
Definition is_meta (c : ascii) : bool :=
  Ascii.eqb c "*" || Ascii.eqb c "(" || Ascii.eqb c ")"
  || Ascii.eqb c "\" || Ascii.eqb c "000".

(** The metacharacters other than the backslash, which introduces the
    escapes themselves. *)
Definition raw_meta (c : ascii) : bool :=
  Ascii.eqb c "*" || Ascii.eqb c "(" || Ascii.eqb c ")" || Ascii.eqb c "000".

(** Reading an escaped value back, as a directory server does: a backslash
    introduces one of the five two-digit codes; a raw metacharacter, or a
    backslash followed by anything else, is not the image of a value. *)
Definition unescape_code (a b : ascii) : option ascii :=
  if Ascii.eqb a "2" && Ascii.eqb b "a" then Some "*"%char
  else if Ascii.eqb a "2" && Ascii.eqb b "8" then Some "("%char
  else if Ascii.eqb a "2" && Ascii.eqb b "9" then Some ")"%char
  else if Ascii.eqb a "5" && Ascii.eqb b "c" then Some "\"%char
  else if Ascii.eqb a "0" && Ascii.eqb b "0" then Some "000"%char
  else None.

Fixpoint unescape (s : string) : option string :=
  match s with
  | EmptyString => Some EmptyString
  | String c rest =>
      if Ascii.eqb c "\" then
        match rest with
        | String a (String b rest') =>
            match unescape_code a b, unescape rest' with
            | Some d, Some out => Some (String d out)
            | _, _ => None
            end
        | _ => None
        end
      else if is_meta c then None
      else
        match unescape rest with
        | Some out => Some (String c out)
        | None => None
        end
  end.

(** The callback [evalFilter] passes to [replace]. *)
Definition lookup_escaped (vars : gmap string string) (name : string)
  : Error + string :=
  match get_property vars name with
  | None => inl (new_Error ("invalid variable: " +:+ name))
  | Some value => inr (escape_value value)
  end.

(** The template with every placeholder replaced by the escaped value of
    its variable, and everything else copied. *)
Fixpoint render (vars : gmap string string) (segs : list Segment) : string :=
  match segs with
  | [] => ""
  | Lit c :: tl => String c (render vars tl)
  | Var g :: tl => escape (default "" (vars !! g)) +:+ render vars tl
  end.


(** What the specification says of the rendering, for a callback [fn]:
    going through the template from the left, a substring made of two
    opening braces, a placeholder name and two closing braces is replaced
    by what [fn] gives for the name; a character at which no such
    substring starts is copied; the first error of [fn] is the outcome. *)
Definition replaced (value rest : Error + string) : Error + string :=
  match value, rest with
  | inr v, inr out => inr (v +:+ out)
  | inl e, _ => inl e
  | inr _, inl e => inl e
  end.

Definition copied (c : ascii) (rest : Error + string) : Error + string :=
  match rest with
  | inr out => inr (String c out)
  | inl e => inl e
  end.

Inductive Renders (fn : string -> Error + string)
  : string -> Error + string -> Prop :=
  | Renders_end : Renders fn "" (inr "")
  | Renders_placeholder g rest r :
      placeholder_name g ->
      Renders fn rest r ->
      Renders fn ("{{" +:+ g +:+ "}}" +:+ rest) (replaced (fn g) r)
  | Renders_copy c s r :
      (forall g rest, placeholder_name g ->
                      String c s <> "{{" +:+ g +:+ "}}" +:+ rest) ->
      Renders fn s r ->
      Renders fn (String c s) (copied c r).

(** Every match gets a plain replacement. *)
Definition segment_plain (fn : string -> Error + string) (seg : Segment)
  : Prop :=
  match seg with
  | Lit _ => True
  | Var g => exists e, fn g = inr e /\ plain e
  end.

(** *** About the runs of [_authenticate] *)

(** Projections of a trace. *)
Definition bind_calls (tr : Trace) : list (string * string) :=
  omap (fun ev => match ev with Bind d p _ => Some (d, p) | _ => None end) tr.

Definition accepted_binds (tr : Trace) : list (string * string) :=
  omap (fun ev => match ev with Bind d p None => Some (d, p) | _ => None end) tr.

Definition is_Unbind (ev : Event) : bool :=
  match ev with Unbind => true | _ => false end.

Definition is_CreateClient (ev : Event) : bool :=
  match ev with CreateClient _ => true | _ => false end.

(** The number of binds made so far. *)
Definition binds_so_far (tr : Trace) : nat := length (List.filter is_Bind tr).

(** What the logger is told when the bind for an entry fails. *)
Definition failure_logged (entry : Entry) (error : Error) : Event :=
  Logger ("failed to bind as " +:+ objectName entry +:+ ": " +:+ message error).

(** What a turn of the loop adds to the trace when the bind fails. *)
Definition rejected_events (entry : Entry) (password : string) (error : Error)
  : Trace :=
  [Logger ("attempting to bind as " +:+ objectName entry);
   Bind (objectName entry) password (Some error);
   failure_logged entry error].

Section AuthenticateNotions.

Variable w : World.

(** What a turn of the loop adds to the trace when the bind is accepted. *)
Definition accepted_events (username password : string) (entry : Entry)
  : Trace :=
  [Logger ("attempting to bind as " +:+ objectName entry);
   Bind (objectName entry) password None;
   Logger ("successfully bound as " +:+ objectName entry
           +:+ " => " +:+ username +:+ " authenticated");
   Logger (JSON_stringify w entry)].

(** The session is open, the service account (if any) is bound, the
    filter is rendered and the search has answered with [response]. *)
Definition search_answers (this : AuthLdap) (u : string)
    (filter : string) (response : Response) : Prop :=
  createClient_throws w (_clientOpts this) = None /\
  connect_reply w = None /\
  (forall c, _credentials this = Some c ->
             bind_reply w 0 (dn c) (bind_password c) = None) /\
  evalFilter_this (_searchFilter this) u = inr filter /\
  search_reply w (_searchBase this) filter = inr response.

(** What remains of [_authenticate] once the search has answered. *)
Definition after_search (u p : string) (response : Response)
  : M AuthResult :=
  status <- lift (end_ response);;
  (if N.eqb status 0 then ret tt
   else throw (new_Error ("unexpected search response status: "
                          +:+ pretty status)));;;
  logger (pretty (length (searchEntry response)) +:+ " entries found");;;
  returned <- try_entries w u p (searchEntry response);;
  match returned with
  | Some result => ret result
  | None =>
      logger ("could not authenticate " +:+ u);;;
      ret Null
  end.

End AuthenticateNotions.

(** The events of a bind with the service account. *)
Definition service_events (this : AuthLdap) : Trace :=
  match _credentials this with
  | Some credentials =>
      [Logger ("attempting to bind with as " +:+ dn credentials +:+ "...");
       Bind (dn credentials) (bind_password credentials) None;
       Logger ("successfully bound as " +:+ dn credentials)]
  | None => []
  end.

(** The trace when the ['end'] event of the search arrives. *)
Definition search_events (this : AuthLdap) (filter : string)
    (entries : list Entry) : Trace :=
  CreateClient (_clientOpts this) :: Connect :: service_events this
  ++ [Logger "searching for entries...";
      Search (_searchBase this) "sub" filter]
  ++ map (fun _ => Logger ".") entries.

(** The binds with the service account: one when [bind] is configured. *)
Definition service_binds (this : AuthLdap) : list (string * string) :=
  match _credentials this with
  | Some c => [(dn c, bind_password c)]
  | None => []
  end.

(** The bind the loop makes for an entry. *)
Definition entry_bind (p : string) (entry : Entry) : string * string :=
  (objectName entry, p).

(** An event of the work done on an open session: anything but the
    creation of a client and the closing of the session. *)
Definition inner (ev : Event) : Prop :=
  is_Unbind ev = false /\ is_CreateClient ev = false.

(** A computation that only adds such events to the trace. *)
Definition only_inner {A} (m : M A) : Prop :=
  forall tr, exists tr', snd (m tr) = tr ++ tr' /\ Forall inner tr'.

(* --------------------------------------------------------------------- *)
(** ** A sample directory

    The configuration and the entries of the scenario of the
    specification, and servers that answer the binds in different ways. *)
(* --------------------------------------------------------------------- *)

Definition alice : Entry :=
  {| objectName := "uid=alice,dc=x"; attributes := [("uid", ["alice"])] |}.

Definition alice2 : Entry :=
  {| objectName := "uid=alice2,dc=x"; attributes := [("uid", ["alice"])] |}.

(** The response of the scenario: both entries, then ['end']. *)
Definition two_entries (status : N) : Response :=
  {| searchEntry := [alice; alice2]; end_ := inr status |}.

Definition sample_conf : Conf :=
  {| uri := "ldap://host";
     certificateAuthorities := None;
     checkCertificate := None;
     bind := Some {| dn := "svc"; bind_password := "p" |};
     base := "dc=x";
     filter := None |}.

(** A file system without files. *)
Definition no_files (path : string) : Error + string :=
  inl (mkError OtherError
         ("ENOENT: no such file or directory, open '" +:+ path +:+ "'")).

Definition sample_this : AuthLdap :=
  snd (configure no_files constructor sample_conf).

Definition invalid_credentials : Error :=
  mkError BindRejected "Invalid Credentials".

Definition connection_reset : Error :=
  mkError ConnectionError "read ECONNRESET".

(** A server with a service account [svc]; [user_reply] answers the other
    binds, and the search gives [two_entries status]. *)
Definition sample_world (user_reply : string -> string -> option Error)
    (status : N) : World :=
  {| createClient_throws := fun opts =>
       match opts with
       | Some _ => None
       | None => Some (mkError TypeError "options (object) required")
       end;
     connect_reply := None;
     bind_reply := fun _ dn password =>
       if String.eqb dn "svc" then
         if String.eqb password "p" then None else Some invalid_credentials
       else user_reply dn password;
     search_reply := fun _ _ => inr (two_entries status);
     JSON_stringify := objectName |}.

(** The second entry has the password [secret]; the first has another. *)
Definition second_accepts (dn password : string) : option Error :=
  if String.eqb dn "uid=alice2,dc=x" && String.eqb password "secret"
  then None else Some invalid_credentials.

(** As [second_accepts], but the connection fails during the first bind. *)
Definition first_resets (dn password : string) : option Error :=
  if String.eqb dn "uid=alice2,dc=x" && String.eqb password "secret"
  then None else Some connection_reset.

(** No entry has the password. *)
Definition nobody_accepts (dn password : string) : option Error :=
  Some invalid_credentials.

(** A server that takes a bind with an empty password as an anonymous bind
    and accepts it. *)
Definition anonymous_accepts (dn password : string) : option Error :=
  if String.eqb password "" then None else Some invalid_credentials.

Definition alice_secret : Credentials := both "alice" "secret".

(* --------------------------------------------------------------------- *)
(** ** More of the module and of the notions about it *)
(* --------------------------------------------------------------------- *)

Section AuthenticateSession.

Variable w : World.

(** The [try] block of [_authenticate]: what is done on the session once
    the client exists. *)
Definition session_body (this : AuthLdap) (username password : string)
  : M AuthResult :=
  client_connect w;;;
  match _credentials this with
  | Some credentials =>
      logger ("attempting to bind with as " +:+ dn credentials +:+ "...");;;
      client_bind w (dn credentials) (bind_password credentials);;;
      logger ("successfully bound as " +:+ dn credentials)
  | None => ret tt
  end;;;
  logger "searching for entries...";;;
  filter <- lift (evalFilter_this (_searchFilter this) username);;
  response <- client_search w (_searchBase this) filter;;
  entries <- on_searchEntry (searchEntry response);;
  status <- lift (end_ response);;
  (if N.eqb status 0 then ret tt
   else throw (new_Error ("unexpected search response status: "
                          +:+ pretty status)));;;
  logger (pretty (length entries) +:+ " entries found");;;
  returned <- try_entries w username password entries;;
  match returned with
  | Some result => ret result
  | None =>
      logger ("could not authenticate " +:+ username);;;
      ret Null
  end.

End AuthenticateSession.

(** The trace up to the point where the filter is rendered. *)
Definition bound_events (this : AuthLdap) : Trace :=
  CreateClient (_clientOpts this) :: Connect :: service_events this
  ++ [Logger "searching for entries..."].

Definition is_Search (ev : Event) : bool :=
  match ev with Search _ _ _ => true | _ => false end.

(** A world in which the connection and the search can fail; every bind
    is accepted. *)
Definition failing_world (connect : option Error) (search : Error + Response)
  : World :=
  {| createClient_throws := fun _ => None;
     connect_reply := connect;
     bind_reply := fun _ _ _ => None;
     search_reply := fun _ _ => search;
     JSON_stringify := objectName |}.

(** An instance whose service account has a password the sample server
    refuses, and one whose filter names a variable that is not supplied. *)
Definition wrong_service_this : AuthLdap :=
  snd (configure no_files constructor
         {| uri := "ldap://host"; certificateAuthorities := None;
            checkCertificate := None;
            bind := Some {| dn := "svc"; bind_password := "wrong" |};
            base := "dc=x"; filter := None |}).

Definition login_filter_this : AuthLdap :=
  snd (configure no_files constructor
         {| uri := "ldap://host"; certificateAuthorities := None;
            checkCertificate := None; bind := None;
            base := "dc=x"; filter := Some "(uid={{login}})" |}).

(** [readFile] as [configure] calls it: it is the function of [fs],
    called with a path and no callback, and the call throws a [TypeError]
    whatever the path and whether or not there is such a file. *)
Definition readFile_without_callback (path : string) : Error + string :=
  inl (mkError TypeError "Callback must be a function").

Definition ca_conf (paths : list string) : Conf :=
  {| uri := "ldaps://host"; certificateAuthorities := Some paths;
     checkCertificate := Some true; bind := None;
     base := "dc=y"; filter := Some "(cn={{name}})" |}.

(* --------------------------------------------------------------------- *)
(** ** The store mixin: [xo-mixins/store.js] *)
(* --------------------------------------------------------------------- *)

(** An error of the database; [error.notFound] tells a missing key from a
    failure. *)
Record LevelError := { notFound : bool; level_message : string }.

(** What a function does with its node-style callback: [cb(error)] or
    [cb(null, result)]. *)
Inductive Callback (A : Type) :=
  | cb_error (error : LevelError)
  | cb_result (result : A).

Arguments cb_error {A} error.
Arguments cb_result {A} result.

(** How a call of [has] ends: with the callback called, or, without a
    callback, by returning or by throwing. *)
Inductive HasOutcome :=
  | Called (args : Callback bool)
  | Returned (b : bool)
  | Threw (error : LevelError).

(** [_levelHas = function has(key, cb)].  [cb] tells whether a callback is
    given.  [got] is what [this.get(key, callback)] passes to its
    callback: an error, or the value.  [thrown] is what the call
    [this.get(key)], without a callback, does: [None] when it returns,
    the error when it throws.  The two are independent: a [get] that
    reports through its callback need not throw when it has none. *)
Definition _levelHas {V : Type}
    (got : LevelError + V) (thrown : option LevelError) (cb : bool)
  : HasOutcome :=
  if cb then
    Called
      match got with
      | inl error => if notFound error then cb_result false else cb_error error
      | inr value => cb_result true
      end
  else
    match thrown with
    | None => Returned true
    | Some error => if negb (notFound error) then Threw error else Returned false
    end.

(** A property of the database object: a function or something else
    ([typeof value !== 'function']). *)
Inductive Property (F D : Type) :=
  | Fn (f : F)
  | Data (d : D).

Arguments Fn {F D} f.
Arguments Data {F D} d.

(** A method of the object [levelPromise] builds: [db::value] or
    [promisify(value, db)]. *)
Inductive Method (F : Type) :=
  | Bound (f : F)
  | Promisified (f : F).

Arguments Bound {F} f.
Arguments Promisified {F} f.

(** [name.endsWith(suffix)] and [name.startsWith(prefix)] *)
Fixpoint endsWith (name suffix : string) : bool :=
  String.eqb name suffix
  || match name with
     | EmptyString => false
     | String _ rest => endsWith rest suffix
     end.

Definition startsWith (name prefix : string) : bool := starts_with prefix name.

Section Store.

Context {F D : Type}.

(** The function [_levelHas], as a value. *)
Variable has : F.

(** [levelHas]: [db.has = _levelHas]. *)
Definition levelHas (db : gmap string (Property F D)) : gmap string (Property F D) :=
  <["has" := Fn has]> db.

(** [levelPromise]: the properties [forEach] visits are those of the map
    [db]; the others stay out of [dbP]. *)
Definition levelPromise (db : gmap string (Property F D)) : gmap string (Method F) :=
  map_imap (fun name value =>
    match value with
    | Data _ => None
    | Fn f =>
        if endsWith name "Stream" || startsWith name "is"
        then Some (Bound f)
        else Some (Promisified f)
    end) db.

(** [getStore(namespace)], [sublevel] being [db.sublevel] of the opened
    database. *)
Definition getStore (sublevel : string -> gmap string (Property F D))
    (namespace : string) : gmap string (Method F) :=
  levelPromise (levelHas (sublevel namespace)).

End Store.

(** A sample sublevel: three methods and a property that is no function. *)
Definition sample_sublevel (namespace : string) : gmap string (Property nat string) :=
  {[ "get" := Fn 1; "createReadStream" := Fn 2; "isOpen" := Fn 3;
     "prefix" := Data namespace ]}.

(* --------------------------------------------------------------------- *)
(** ** The effects of the smart backup form *)
(* --------------------------------------------------------------------- *)

(** What [onKeyDown] does, in order: calls of other effects, the
    assignment to [target.value] and [event.preventDefault()]. *)
Inductive KeyDownStep :=
  | call_addTag (value : string)
  | set_target_value (value : string)
  | call_stopEditTag
  | call_preventDefault.

(** [onKeyDown: (effects, event) => ...], on the key code and the value of
    the target of the event. *)
Definition onKeyDown (keyCode : Z) (target_value : string) : list KeyDownStep :=
  if Z.eqb keyCode 13 then
    (if negb (String.eqb target_value "") then
       [call_addTag target_value; set_target_value ""]
     else [])
    ++ [call_preventDefault]
  else if Z.eqb keyCode 27 then
    [call_stopEditTag; call_preventDefault]
  else [].

(** [addTag]: the list it passes to [effects.setTagValues];
    [tags_values] is [tags.values], [None] when [undefined]. *)
Definition addTag (tags_values : option (list string)) (newTag : string)
  : list string :=
  match tags_values with
  | None => [newTag]
  | Some values => values ++ [newTag]
  end.

(** The lists [setTagValues] receives in the course of a key event: one
    for each call of [addTag] that [onKeyDown] makes. *)
Definition setTagValues_calls (tags_values : option (list string))
    (keyCode : Z) (target_value : string) : list (list string) :=
  omap (fun step =>
          match step with
          | call_addTag value => Some (addTag tags_values value)
          | _ => None
          end)
       (onKeyDown keyCode target_value).

(* ===================================================================== *)
(** * Part II: properties *)
(* ===================================================================== *)

(** ** Strings *)

Lemma append_cons c s t : String c s +:+ t = String c (s +:+ t).
Proof. reflexivity. Qed.

Lemma append_nil_l t : "" +:+ t = t.
Proof. reflexivity. Qed.

Lemma append_length s t :
  String.length (s +:+ t) = String.length s + String.length t.
Proof.
  induction s as [|c s IH]; [reflexivity|].
  rewrite append_cons. simpl. by rewrite IH.
Qed.

Lemma strip_prefix_Some p s t : strip_prefix p s = Some t <-> s = p +:+ t.
Proof.
  revert s. induction p as [|a p IH]; intros s.
  - simpl. rewrite append_nil_l. split; [by intros [= ->] | by intros ->].
  - rewrite append_cons. destruct s as [|b s]; simpl; [split; discriminate|].
    destruct (Ascii.eqb_spec a b) as [->|Hne].
    + rewrite IH. split; [by intros -> | by intros [= ->]].
    + split; [discriminate | intros [= -> _]; by destruct Hne].
Qed.

(** ** The placeholder pattern *)

Lemma scan_name_append s :
  fst (scan_name s) +:+ snd (scan_name s) = s.
Proof.
  induction s as [|c s IH]; [reflexivity|]. simpl.
  destruct (Ascii.eqb c "}"); [reflexivity|].
  destruct (scan_name s) as [n r]. simpl in *. by rewrite append_cons, IH.
Qed.

Lemma scan_name_no_close s : "}"%char ∉ chars (fst (scan_name s)).
Proof.
  induction s as [|c s IH]; simpl; [apply not_elem_of_nil|].
  destruct (Ascii.eqb_spec c "}") as [->|Hne]; simpl; [apply not_elem_of_nil|].
  destruct (scan_name s) as [n r]. simpl in *.
  rewrite elem_of_cons. intros [Heq|Hin]; [by destruct Hne | by apply IH].
Qed.

(** [scan_name] on a text whose closing brace is in sight. *)
Lemma scan_name_spec n r :
  "}"%char ∉ chars n ->
  scan_name (n +:+ String "}" r) = (n, String "}" r).
Proof.
  induction n as [|c n IH]; intros Hn.
  - reflexivity.
  - rewrite append_cons. simpl in *.
    apply not_elem_of_cons in Hn as [Hc Hn].
    destruct (Ascii.eqb_spec c "}") as [->|_]; [done|].
    by rewrite (IH Hn).
Qed.

(** [VAR_RE] matches at the start of [s] exactly when [s] begins with two
    opening braces, a placeholder name and two closing braces. *)
Lemma VAR_RE_exec_Some s g rest :
  VAR_RE_exec s = Some (g, rest) <->
  s = "{{" +:+ g +:+ "}}" +:+ rest /\ placeholder_name g.
Proof.
  unfold VAR_RE_exec, placeholder_name. split.
  - destruct (strip_prefix "{{" s) as [t|] eqn:Ht; [|discriminate].
    apply strip_prefix_Some in Ht.
    pose proof (scan_name_append t) as Happ.
    pose proof (scan_name_no_close t) as Hno.
    destruct (scan_name t) as [n r]. simpl in Happ, Hno.
    destruct n as [|c n]; [discriminate|].
    destruct (strip_prefix "}}" r) as [x|] eqn:Hr; [|discriminate].
    apply strip_prefix_Some in Hr. intros [= <- <-].
    subst. done.
  - intros (-> & Hne & Hno).
    replace (strip_prefix "{{" ("{{" +:+ g +:+ "}}" +:+ rest))
      with (Some (g +:+ "}}" +:+ rest))
      by (symmetry; by apply strip_prefix_Some).
    change (g +:+ "}}" +:+ rest) with (g +:+ String "}" (String "}" rest)).
    rewrite (scan_name_spec _ _ Hno).
    destruct g as [|c g]; [done|].
    reflexivity.
Qed.

Lemma VAR_RE_exec_length s g rest :
  VAR_RE_exec s = Some (g, rest) -> String.length rest < String.length s.
Proof.
  intros [-> _]%VAR_RE_exec_Some. rewrite !append_length. simpl. lia.
Qed.

Lemma VAR_RE_exec_head s g rest :
  VAR_RE_exec s = Some (g, rest) -> exists s', s = String "{" s'.
Proof. intros [-> _]%VAR_RE_exec_Some. by eexists. Qed.

Lemma VAR_RE_exec_other c s :
  c <> "{"%char -> VAR_RE_exec (String c s) = None.
Proof.
  intros Hc. destruct (VAR_RE_exec (String c s)) as [[g rest]|] eqn:E; [|done].
  apply VAR_RE_exec_head in E as [s' Hs]. injection Hs as Hs _. done.
Qed.

(** The length of the string is enough fuel for the scan. *)
Lemma segments_fuel_enough n m s :
  String.length s <= n -> String.length s <= m ->
  segments_fuel n s = segments_fuel m s.
Proof.
  revert m s. induction n as [|n IH]; intros m s Hn Hm.
  - destruct s; [|simpl in Hn; lia]. destruct m; reflexivity.
  - destruct m as [|m].
    + destruct s; [reflexivity | simpl in Hm; lia].
    + simpl. destruct (VAR_RE_exec s) as [[g rest]|] eqn:E.
      * apply VAR_RE_exec_length in E. f_equal. apply IH; lia.
      * destruct s as [|c s]; [reflexivity|]. simpl in *.
        f_equal. apply IH; lia.
Qed.

(** The scan, one step at a time. *)
Lemma segments_unfold s :
  segments s =
  match VAR_RE_exec s with
  | Some (g, rest) => Var g :: segments rest
  | None =>
      match s with
      | EmptyString => []
      | String c s' => Lit c :: segments s'
      end
  end.
Proof.
  unfold segments. destruct s as [|c s]; [reflexivity|].
  cbn [String.length segments_fuel].
  destruct (VAR_RE_exec (String c s)) as [[g rest]|] eqn:E.
  - apply VAR_RE_exec_length in E. simpl in E.
    f_equal. apply segments_fuel_enough; lia.
  - reflexivity.
Qed.

(** Induction along the scan. *)
Lemma segments_ind (P : string -> Prop) :
  P "" ->
  (forall c s, VAR_RE_exec (String c s) = None -> P s -> P (String c s)) ->
  (forall s g rest, VAR_RE_exec s = Some (g, rest) -> P rest -> P s) ->
  forall s, P s.
Proof.
  intros Hnil Hlit Hvar s.
  remember (String.length s) as n eqn:Hn.
  revert s Hn. induction n as [n IH] using lt_wf_ind. intros s ->.
  destruct (VAR_RE_exec s) as [[g rest]|] eqn:E.
  - apply (Hvar _ _ _ E). apply (IH (String.length rest)); [|done].
    by apply VAR_RE_exec_length in E.
  - destruct s as [|c s]; [done|].
    apply (Hlit _ _ E). apply (IH (String.length s)); [simpl; lia | done].
Qed.

Lemma VAR_RE_exec_closes t :
  VAR_RE_exec ("{{" +:+ t) = None <-> closes t = false.
Proof.
  unfold VAR_RE_exec, closes, starts_with.
  change (strip_prefix "{{" ("{{" +:+ t)) with (Some t).
  cbv beta iota.
  destruct (scan_name t) as [[|c n] r]; [tauto|].
  destruct (strip_prefix "}}" r); split; congruence.
Qed.

Lemma starts_with_close2 s :
  starts_with "}}" s = true -> exists s', s = String "}" (String "}" s').
Proof.
  unfold starts_with. destruct (strip_prefix "}}" s) as [t|] eqn:E; [|done].
  apply strip_prefix_Some in E as ->. by eexists.
Qed.

Lemma closes_close s : closes (String "}" s) = false.
Proof. reflexivity. Qed.

Lemma scan_name_cons c s :
  scan_name (String c s) =
  if Ascii.eqb c "}" then (EmptyString, String c s)
  else let '(n, r) := scan_name s in (String c n, r).
Proof. reflexivity. Qed.

Lemma starts_with_close2_other a s :
  a <> "}"%char -> starts_with "}}" (String a s) = false.
Proof.
  intros Ha. unfold starts_with. cbn [strip_prefix].
  destruct (Ascii.eqb_spec "}" a) as [<-|_]; done.
Qed.

Lemma closes_cons c s :
  c <> "}"%char ->
  closes (String c s) = closes s || starts_with "}}" s.
Proof.
  intros Hc. unfold closes. rewrite scan_name_cons.
  destruct (Ascii.eqb_spec c "}") as [->|_]; [done|].
  pose proof (scan_name_append s) as Happ.
  pose proof (scan_name_no_close s) as Hno.
  destruct (scan_name s) as [[|a n] r]; simpl in Happ, Hno.
  - rewrite append_nil_l in Happ. by subst.
  - rewrite append_cons in Happ. subst s.
    apply not_elem_of_cons in Hno as [Ha _].
    rewrite starts_with_close2_other by done.
    by rewrite orb_false_r.
Qed.

Lemma closes_match g rest :
  "}"%char ∉ chars g -> closes ("{{" +:+ g +:+ "}}" +:+ rest) = true.
Proof.
  intros Hg. unfold closes.
  change ("{{" +:+ g +:+ "}}" +:+ rest)
    with (("{{" +:+ g) +:+ String "}" (String "}" rest)).
  rewrite scan_name_spec; [reflexivity|].
  simpl. rewrite !not_elem_of_cons. done.
Qed.

Lemma VAR_RE_test_plain e out :
  (forall c, c ∈ chars e -> c <> "{"%char) ->
  VAR_RE_test (e +:+ out) = VAR_RE_test out.
Proof.
  induction e as [|c e IH]; intros He; [reflexivity|].
  rewrite append_cons.
  assert (c <> "{"%char) as Hc by (apply He; simpl; apply elem_of_cons; by left).
  cbn [VAR_RE_test]. rewrite (VAR_RE_exec_other _ _ Hc).
  apply IH. intros d Hd. apply He. simpl. apply elem_of_cons. by right.
Qed.

Section Substitution.

Variable fn : string -> Error + string.

(** A brace at the head of the output is a brace at the head of the
    input, and was not the start of a match. *)
Lemma substitute_head_brace s c out :
  Forall (segment_plain fn) (segments s) ->
  substitute fn (segments s) = inr (String c out) ->
  c = "{"%char \/ c = "}"%char ->
  exists s', s = String c s' /\ VAR_RE_exec s = None /\
             Forall (segment_plain fn) (segments s') /\
             substitute fn (segments s') = inr out.
Proof.
  rewrite segments_unfold.
  destruct (VAR_RE_exec s) as [[g rest]|] eqn:E.
  - intros Hok Hsub Hc. exfalso.
    apply Forall_cons in Hok as [(e & He & Hne & Hpl) _].
    simpl in Hsub. rewrite He in Hsub.
    destruct (substitute fn (segments rest)) as [?|o]; [done|].
    destruct e as [|a e]; [done|].
    rewrite append_cons in Hsub. injection Hsub as -> _.
    destruct (Hpl c) as [H1 H2]; [simpl; apply elem_of_cons; by left|].
    destruct Hc; done.
  - destruct s as [|c0 s]; [done|].
    intros Hok Hsub _. apply Forall_cons in Hok as [_ Hok].
    simpl in Hsub.
    destruct (substitute fn (segments s)) as [?|o] eqn:Eo; [done|].
    injection Hsub as -> ->. by exists s.
Qed.

Lemma substitute_starts_close2 s out :
  Forall (segment_plain fn) (segments s) ->
  substitute fn (segments s) = inr out ->
  starts_with "}}" out = true -> starts_with "}}" s = true.
Proof.
  intros Hok Hsub [o ->]%starts_with_close2.
  destruct (substitute_head_brace _ _ _ Hok Hsub)
    as (s1 & -> & _ & Hok1 & Hsub1); [by right|].
  destruct (substitute_head_brace _ _ _ Hok1 Hsub1)
    as (s2 & -> & _ & _ & _); [by right|].
  reflexivity.
Qed.

(** If the output completes a match after two opening braces, so did the
    input. *)
Lemma substitute_closes s :
  forall out,
  Forall (segment_plain fn) (segments s) ->
  substitute fn (segments s) = inr out ->
  closes out = true -> closes s = true.
Proof.
  induction s as [|c s E IH|s g rest E _] using segments_ind; intros out.
  - intros _ [= <-]. done.
  - rewrite segments_unfold, E. intros [_ Hok]%Forall_cons Hsub.
    simpl in Hsub.
    destruct (substitute fn (segments s)) as [?|o] eqn:Eo; [done|].
    injection Hsub as <-.
    destruct (decide (c = "}"%char)) as [->|Hc]; [by rewrite closes_close|].
    rewrite !closes_cons by done.
    intros [Hcl|Hst]%orb_true_iff.
    + by rewrite (IH o).
    + rewrite (substitute_starts_close2 s o) by done. apply orb_true_r.
  - intros _ _ _. apply VAR_RE_exec_Some in E as [-> [_ Hg]].
    by apply closes_match.
Qed.

(** With plain replacements, nothing in the output matches the pattern. *)
Lemma substitute_no_match s :
  forall out,
  Forall (segment_plain fn) (segments s) ->
  substitute fn (segments s) = inr out ->
  VAR_RE_test out = false.
Proof.
  induction s as [|c s E IH|s g rest E IH] using segments_ind; intros out.
  - intros _ [= <-]. done.
  - rewrite segments_unfold, E. intros [_ Hok]%Forall_cons Hsub.
    simpl in Hsub.
    destruct (substitute fn (segments s)) as [?|o] eqn:Eo; [done|].
    injection Hsub as <-.
    cbn [VAR_RE_test].
    destruct (VAR_RE_exec (String c o)) as [[g' rest']|] eqn:E'; [|by apply IH].
    exfalso.
    assert (VAR_RE_exec (String c o) <> None) as Hsome by (by rewrite E').
    apply VAR_RE_exec_Some in E' as [Eq _].
    change ("{{" +:+ g' +:+ "}}" +:+ rest')
      with (String "{" (String "{" (g' +:+ "}}" +:+ rest'))) in Eq.
    injection Eq as -> ->.
    destruct (substitute_head_brace _ _ _ Hok Eo)
      as (s2 & -> & _ & Hok2 & Hsub2); [by left|].
    change (String "{" (String "{" ?t)) with ("{{" +:+ t) in *.
    rewrite VAR_RE_exec_closes in E, Hsome.
    apply not_false_is_true in Hsome.
    by rewrite (substitute_closes _ _ Hok2 Hsub2 Hsome) in E.
  - rewrite segments_unfold, E.
    intros [(e & He & _ & Hpl) Hok]%Forall_cons Hsub.
    simpl in Hsub. rewrite He in Hsub.
    destruct (substitute fn (segments rest)) as [?|o] eqn:Eo; [done|].
    injection Hsub as <-.
    rewrite VAR_RE_test_plain; [by apply IH|].
    intros c Hc. by apply Hpl.
Qed.

End Substitution.

(** ** Escaping *)

Lemma escape_char_cases c :
  (is_meta c = true /\
   exists a b, escape_char c = String "\" (String a (String b ""))
               /\ unescape_code a b = Some c
               /\ raw_meta a = false /\ raw_meta b = false
               /\ a <> "{"%char /\ a <> "}"%char
               /\ b <> "{"%char /\ b <> "}"%char)
  \/ (is_meta c = false /\ escape_char c = String c "").
Proof.
  unfold is_meta, escape_char.
  destruct (Ascii.eqb_spec c "*") as [->|H1];
    [left; split; [done|]; exists "2"%char, "a"%char; by repeat split|].
  destruct (Ascii.eqb_spec c "(") as [->|H2];
    [left; split; [done|]; exists "2"%char, "8"%char; by repeat split|].
  destruct (Ascii.eqb_spec c ")") as [->|H3];
    [left; split; [done|]; exists "2"%char, "9"%char; by repeat split|].
  destruct (Ascii.eqb_spec c "\") as [->|H4];
    [left; split; [done|]; exists "5"%char, "c"%char; by repeat split|].
  destruct (Ascii.eqb_spec c "000") as [->|H5];
    [left; split; [done|]; exists "0"%char, "0"%char; by repeat split|].
  by right.
Qed.

Lemma is_meta_backslash c :
  is_meta c = false -> Ascii.eqb c "\" = false /\ raw_meta c = false.
Proof.
  unfold is_meta, raw_meta.
  destruct (Ascii.eqb c "*"), (Ascii.eqb c "("), (Ascii.eqb c ")"),
    (Ascii.eqb c "\"), (Ascii.eqb c "000"); done.
Qed.

(** Reading an escaped value back gives the value. *)
Lemma unescape_escape v : unescape (escape v) = Some v.
Proof.
  induction v as [|c v IH]; [reflexivity|].
  cbn [escape].
  destruct (escape_char_cases c) as [(_ & a & b & -> & Hab & _)|(Hm & ->)].
  - rewrite !append_cons, append_nil_l. cbn [unescape].
    rewrite Ascii.eqb_refl, Hab, IH. done.
  - rewrite append_cons, append_nil_l. cbn [unescape].
    destruct (is_meta_backslash _ Hm) as [-> _]. by rewrite Hm, IH.
Qed.

(** An escaped value has no raw parenthesis, asterisk or null byte. *)
Lemma escape_no_raw_meta v c :
  c ∈ chars (escape v) -> raw_meta c = false.
Proof.
  induction v as [|d v IH]; cbn [escape]; [by intros ?%elem_of_nil|].
  destruct (escape_char_cases d)
    as [(_ & a & b & -> & _ & Ha & Hb & _)|(Hm & ->)].
  - rewrite !append_cons, append_nil_l. simpl.
    rewrite !elem_of_cons. intros [->|[->|[->|Hin]]]; auto.
  - rewrite append_cons, append_nil_l. simpl.
    rewrite elem_of_cons. intros [->|Hin]; [|auto].
    by destruct (is_meta_backslash _ Hm).
Qed.

(** Escaping keeps a plain value plain. *)
Lemma escape_plain v : plain v -> plain (escape v).
Proof.
  intros [Hne Hbr]. split.
  - destruct v as [|c v]; [done|]. cbn [escape].
    destruct (escape_char_cases c) as [(_ & a & b & -> & _)|(_ & ->)]; done.
  - clear Hne. induction v as [|d v IH]; cbn [escape];
      [by intros c ?%elem_of_nil|].
    assert (forall c, c ∈ chars v -> c <> "{"%char /\ c <> "}"%char) as Hv
      by (intros c Hc; apply Hbr; simpl; apply elem_of_cons; by right).
    assert (d <> "{"%char /\ d <> "}"%char) as Hd
      by (apply Hbr; simpl; apply elem_of_cons; by left).
    destruct (escape_char_cases d)
      as [(_ & a & b & -> & _ & _ & _ & Ha1 & Ha2 & Hb1 & Hb2)|(_ & ->)].
    + rewrite !append_cons, append_nil_l. simpl. intros c.
      rewrite !elem_of_cons. intros [->|[->|[->|Hin]]]; auto.
    + rewrite append_cons, append_nil_l. simpl. intros c.
      rewrite elem_of_cons. intros [->|Hin]; auto.
Qed.

(** ** evalFilter *)

Lemma evalFilter_substitute filter vars :
  evalFilter filter vars = substitute (lookup_escaped vars) (segments filter).
Proof. reflexivity. Qed.

Lemma elem_of_placeholders g filter :
  g ∈ placeholders filter <-> Var g ∈ segments filter.
Proof.
  unfold placeholders. rewrite list_elem_of_omap. split.
  - intros ([c|g'] & Hin & [= ->]). done.
  - intros Hin. by exists (Var g).
Qed.

Lemma lookup_escaped_own vars g v :
  vars !! g = Some v -> lookup_escaped vars g = inr (escape v).
Proof. intros Hv. unfold lookup_escaped, get_property. by rewrite Hv. Qed.


Lemma substitute_render vars segs :
  Forall (fun seg => match seg with
                     | Var g => is_Some (vars !! g)
                     | Lit _ => True
                     end) segs ->
  substitute (lookup_escaped vars) segs = inr (render vars segs).
Proof.
  induction 1 as [|seg segs Hseg _ IH]; [reflexivity|].
  destruct seg as [c|g]; simpl; rewrite IH; [done|].
  destruct Hseg as [v Hv]. by rewrite (lookup_escaped_own _ _ _ Hv), Hv.
Qed.



Lemma segments_Replaces filter : Replaces filter (segments filter).
Proof.
  induction filter as [|c s E IH|s g rest E IH] using segments_ind.
  - constructor.
  - rewrite segments_unfold, E. constructor; [|done].
    intros g rest Hg Heq.
    assert (VAR_RE_exec (String c s) = Some (g, rest)) as E'
      by (by apply VAR_RE_exec_Some).
    congruence.
  - rewrite segments_unfold, E.
    apply VAR_RE_exec_Some in E as [-> Hg]. by constructor.
Qed.

(** *** The claims about the template engine *)

(** C6 (as amended).  For every template and every variable set that has a
    value for each placeholder of the template, rendering returns a string:
    the template with each placeholder replaced by the escaped value of its
    variable.  An escaped value has no raw parenthesis, asterisk or null
    byte, and reads back as the value.  The output is not scanned again, so
    it is free of placeholders when the values are not empty and have no
    brace. *)
Theorem evalFilter_complete (filter : string) (vars : gmap string string) :
  (forall g, g ∈ placeholders filter -> is_Some (vars !! g)) ->
  exists out,
    evalFilter filter vars = inr out /\
    out = render vars (segments filter) /\
    (forall g v, g ∈ placeholders filter -> vars !! g = Some v ->
       unescape (escape v) = Some v /\
       forall c, c ∈ chars (escape v) -> raw_meta c = false) /\
    ((forall g v, g ∈ placeholders filter -> vars !! g = Some v -> plain v) ->
     VAR_RE_test out = false).
Proof.
  intros Hall.
  assert (Forall (fun seg => match seg with
                             | Var g => is_Some (vars !! g)
                             | Lit _ => True
                             end) (segments filter))
    as Hdef.
  { apply Forall_forall. intros [c|g] Hin; [done|].
    apply elem_of_placeholders in Hin. by apply Hall. }
  exists (render vars (segments filter)).
  rewrite evalFilter_substitute. split; [by apply substitute_render|].
  split; [done|]. split.
  - intros g v _ _. split; [apply unescape_escape|].
    intros c. apply escape_no_raw_meta.
  - intros Hplain.
    apply (substitute_no_match (lookup_escaped vars) filter);
      [|by apply substitute_render].
    apply Forall_forall. intros [c|g] Hin; [done|].
    apply elem_of_placeholders in Hin. destruct (Hall g Hin) as [v Hv].
    exists (escape v). rewrite (lookup_escaped_own _ _ _ Hv).
    split; [done|]. apply escape_plain. by apply (Hplain g).
Qed.

(** C6, the claim as stated, fails: the user name [{{name}}] is a value for
    the only placeholder of the default filter, and the rendered string
    still holds a placeholder. *)
Lemma evalFilter_unresolved_token :
  placeholders "(uid={{name}})" = ["name"] /\
  ({[ "name" := "{{name}}" ]} : gmap string string) !! "name" = Some "{{name}}" /\
  evalFilter "(uid={{name}})" {[ "name" := "{{name}}" ]} = inr "(uid={{name}})" /\
  VAR_RE_test "(uid={{name}})" = true.
Proof. repeat split; vm_compute; reflexivity. Qed.

(** An empty value lets the text around it close a placeholder. *)
Example evalFilter_empty_value :
  evalFilter "{{a}{{b}}}" {[ "b" := "" ]} = inr "{{a}}".
Proof. vm_compute. reflexivity. Qed.

(** The user name of the specification's example cannot change the
    structure of the filter. *)
Example evalFilter_injection :
  evalFilter "(uid={{name}})" {[ "name" := "a)(uid=*" ]}
  = inr "(uid=a\29\28uid=\2a)".
Proof. vm_compute. reflexivity. Qed.



(** The specification's example: [{{group}}] without [group]. *)
Example evalFilter_group_missing :
  evalFilter "(&(uid={{name}})(memberOf={{group}}))" {[ "name" := "bob" ]}
  = inl (new_Error "invalid variable: group").
Proof. vm_compute. reflexivity. Qed.


Lemma evalFilter_complete_witness :
  exists out,
    evalFilter "(uid={{name}})" {[ "name" := "a)(uid=*" ]} = inr out /\
    out = "(uid=a\29\28uid=\2a)" /\
    unescape (escape "a)(uid=*") = Some "a)(uid=*" /\
    VAR_RE_test out = false.
Proof.
  destruct (evalFilter_complete "(uid={{name}})" {[ "name" := "a)(uid=*" ]})
    as (out & Hout & Hrender & Hescaped & Hplain).
  - intros g Hg.
    assert (g = "name") as ->.
    { change (placeholders "(uid={{name}})") with ["name"] in Hg.
      apply elem_of_cons in Hg as [->|Hg]; [done|]. by apply elem_of_nil in Hg. }
    vm_compute. by eexists.
  - exists out. split; [exact Hout|]. split; [by rewrite Hrender|].
    split; [apply unescape_escape|].
    apply Hplain. intros g v Hg.
    assert (g = "name") as ->.
    { change (placeholders "(uid={{name}})") with ["name"] in Hg.
      apply elem_of_cons in Hg as [->|Hg]; [done|]. by apply elem_of_nil in Hg. }
    intros Hv.
    assert (v = "a)(uid=*") as -> by (vm_compute in Hv; congruence).
    split; [done|].
    intros c. cbn. rewrite !elem_of_cons, elem_of_nil.
    intros [->|[->|[->|[->|[->|[->|[->|[->|[]]]]]]]]]; done.
Defined.

Lemma VAR_RE_exec_None c s :
  VAR_RE_exec (String c s) = None <->
  (forall g rest, placeholder_name g ->
                  String c s <> "{{" +:+ g +:+ "}}" +:+ rest).
Proof.
  split.
  - intros Hnone g rest Hg Heq.
    assert (VAR_RE_exec (String c s) = Some (g, rest)) as E
      by (by apply VAR_RE_exec_Some).
    congruence.
  - intros Hno. destruct (VAR_RE_exec (String c s)) as [[g rest]|] eqn:E; [|done].
    apply VAR_RE_exec_Some in E as [Heq Hg]. by destruct (Hno g rest).
Qed.

Lemma substitute_cons_Var fn g segs :
  substitute fn (Var g :: segs) = replaced (fn g) (substitute fn segs).
Proof. cbn [substitute]. by destruct (fn g), (substitute fn segs). Qed.

Lemma substitute_cons_Lit fn c segs :
  substitute fn (Lit c :: segs) = copied c (substitute fn segs).
Proof. reflexivity. Qed.

(** [replace] renders as the specification says, and in no other way. *)
Lemma String_replace_Renders fn filter r :
  Renders fn filter r <-> String_replace filter fn = r.
Proof.
  unfold String_replace. split.
  - induction 1 as [|g rest r Hg _ IH|c s r Hno _ IH].
    + reflexivity.
    + assert (VAR_RE_exec ("{{" +:+ g +:+ "}}" +:+ rest) = Some (g, rest)) as E
        by (by apply VAR_RE_exec_Some).
      by rewrite segments_unfold, E, substitute_cons_Var, IH.
    + apply VAR_RE_exec_None in Hno.
      by rewrite segments_unfold, Hno, substitute_cons_Lit, IH.
  - intros <-.
    induction filter as [|c s E IH|s g rest E IH] using segments_ind.
    + constructor.
    + rewrite segments_unfold, E, substitute_cons_Lit.
      constructor; [by apply VAR_RE_exec_None | done].
    + rewrite segments_unfold, E, substitute_cons_Var.
      apply VAR_RE_exec_Some in E as [-> Hg]. by constructor.
Qed.

(** C10.  [evalFilter] replaces exactly the substrings made of two
    opening braces, one or more characters other than a closing brace,
    and two closing braces, each by what its callback gives for the name
    between the braces, and copies every other character: its outcome is
    the one the description of the rendering allows, and the only one.
    The literal [{{}}], whose name would be empty, is copied to the
    output and throws nothing, whatever the variables. *)
Theorem evalFilter_empty_placeholder :
  (forall filter vars r,
     Renders (lookup_escaped vars) filter r <-> evalFilter filter vars = r) /\
  (forall filter, Replaces filter (segments filter)) /\
  (forall vars, evalFilter "{{}}" vars = inr "{{}}").
Proof.
  split; [|split; [apply segments_Replaces|]].
  - intros filter vars r. rewrite evalFilter_substitute.
    apply String_replace_Renders.
  - intros vars. reflexivity.
Qed.

(** ** _authenticate *)

Section AuthenticateProperties.

Variable w : World.

Lemma binds_so_far_app tr tr' :
  binds_so_far (tr ++ tr') = binds_so_far tr + binds_so_far tr'.
Proof. unfold binds_so_far. by rewrite List.filter_app, length_app. Qed.

Lemma bind_calls_app tr tr' :
  bind_calls (tr ++ tr') = bind_calls tr ++ bind_calls tr'.
Proof. apply omap_app. Qed.

Lemma accepted_binds_app tr tr' :
  accepted_binds (tr ++ tr') = accepted_binds tr ++ accepted_binds tr'.
Proof. apply omap_app. Qed.

(** A bind that fails, whatever the error, sends the loop to the next
    entry. *)
Lemma try_entries_rejected u p entry rest tr error :
  bind_reply w (binds_so_far tr) (objectName entry) p = Some error ->
  try_entries w u p (entry :: rest) tr
  = try_entries w u p rest (tr ++ rejected_events entry p error).
Proof.
  intros Hreply.
  cbn [try_entries]. unfold bindM at 1. unfold try_catch.
  unfold bindM, logger, emit, client_bind.
  fold (binds_so_far (tr ++ [Logger ("attempting to bind as " +:+ objectName entry)])).
  rewrite binds_so_far_app, Nat.add_0_r, Hreply.
  unfold ret, rejected_events. by rewrite <- !app_assoc.
Qed.

(** A bind that succeeds ends the loop and the function. *)
Lemma try_entries_accepted u p entry rest tr :
  bind_reply w (binds_so_far tr) (objectName entry) p = None ->
  try_entries w u p (entry :: rest) tr
  = (inr (Some (Authenticated u)), tr ++ accepted_events w u p entry).
Proof.
  intros Hreply.
  cbn [try_entries]. unfold bindM at 1. unfold try_catch.
  unfold bindM, logger, emit, client_bind.
  fold (binds_so_far (tr ++ [Logger ("attempting to bind as " +:+ objectName entry)])).
  rewrite binds_so_far_app, Nat.add_0_r, Hreply.
  unfold ret, accepted_events. by rewrite <- !app_assoc.
Qed.

Lemma on_searchEntry_run emitted tr :
  on_searchEntry emitted tr
  = (inr emitted, tr ++ map (fun _ => Logger ".") emitted).
Proof.
  revert tr. induction emitted as [|entry rest IH]; intros tr.
  - cbn. by rewrite app_nil_r.
  - cbn [on_searchEntry]. unfold bindM, logger, emit. rewrite IH.
    unfold ret. cbn [map]. by rewrite <- app_assoc.
Qed.

(** How the steps of a computation run. *)
Lemma bindM_assoc {A B C} (m : M A) (k : A -> M B) (k' : B -> M C) tr :
  bindM (bindM m k) k' tr = bindM m (fun a => bindM (k a) k') tr.
Proof. unfold bindM. by destruct (m tr) as [[e|a] tr']. Qed.

Lemma bindM_ret {A B} (a : A) (k : A -> M B) tr :
  bindM (ret a) k tr = k a tr.
Proof. reflexivity. Qed.

Lemma bindM_throw {A B} (e : Error) (k : A -> M B) tr :
  bindM (throw e) k tr = (inl e, tr).
Proof. reflexivity. Qed.

Lemma bindM_emit {B} ev (k : unit -> M B) tr :
  bindM (emit ev) k tr = k tt (tr ++ [ev]).
Proof. reflexivity. Qed.

Lemma bindM_lift {A B} (r : Error + A) (k : A -> M B) tr :
  bindM (lift r) k tr
  = match r with inr a => k a tr | inl e => (inl e, tr) end.
Proof. unfold bindM, lift. by destruct r. Qed.

Lemma bindM_client_bind {B} dn p (k : unit -> M B) tr :
  bindM (client_bind w dn p) k tr
  = match bind_reply w (binds_so_far tr) dn p with
    | None => k tt (tr ++ [Bind dn p None])
    | Some e => (inl e, tr ++ [Bind dn p (Some e)])
    end.
Proof.
  unfold bindM, client_bind. fold (binds_so_far tr).
  by destruct (bind_reply w (binds_so_far tr) dn p).
Qed.

Lemma bindM_on_searchEntry {B} emitted (k : list Entry -> M B) tr :
  bindM (on_searchEntry emitted) k tr
  = k emitted (tr ++ map (fun _ => Logger ".") emitted).
Proof. unfold bindM. by rewrite on_searchEntry_run. Qed.

Ltac run_step :=
  first [ rewrite bindM_assoc | rewrite bindM_emit | rewrite bindM_ret
        | rewrite bindM_throw | rewrite bindM_lift
        | rewrite bindM_on_searchEntry ];
  cbv beta match.

Lemma run_search_answers this u p filter response :
  search_answers w this u filter response ->
  run w this (both u p)
  = try_finally (after_search w u p response) client_unbind
      (search_events this filter (searchEntry response)).
Proof.
  intros (Hcreate & Hconnect & Hservice & Hfilter & Hsearch).
  unfold run, _authenticate, both. cbn [username password].
  unfold createClient. do 2 run_step. rewrite Hcreate. run_step.
  unfold try_finally, search_events, service_events.
  match goal with
  | |- (let (r, tr') := ?body ?tr0 in _) = (let (r', tr'') := ?rhs ?tr1 in _) =>
      assert (body tr0 = rhs tr1) as ->; [|reflexivity]
  end.
  unfold client_connect. do 2 run_step. rewrite Hconnect. run_step.
  unfold logger, client_search.
  destruct (_credentials this) as [c|] eqn:Hc.
  - repeat run_step. rewrite bindM_client_bind.
    cbn [app binds_so_far List.filter is_Bind length].
    rewrite (Hservice c eq_refl). cbv beta match.
    repeat run_step. rewrite Hfilter. repeat run_step. rewrite Hsearch.
    repeat run_step. reflexivity.
  - repeat run_step. rewrite Hfilter. repeat run_step. rewrite Hsearch.
    repeat run_step. reflexivity.
Qed.

Lemma omap_dots {B} (f : Event -> option B) (entries : list Entry) :
  f (Logger ".") = None -> omap f (map (fun _ => Logger ".") entries) = [].
Proof. intros Hf. induction entries as [|e es IH]; [done|]. cbn. by rewrite Hf. Qed.

Lemma bind_calls_search_events this filter entries :
  bind_calls (search_events this filter entries) = service_binds this.
Proof.
  unfold search_events, service_events, service_binds, bind_calls.
  destruct (_credentials this); cbn; by rewrite omap_dots.
Qed.

Lemma accepted_binds_search_events this filter entries :
  accepted_binds (search_events this filter entries) = service_binds this.
Proof.
  unfold search_events, service_events, service_binds, accepted_binds.
  destruct (_credentials this); cbn; by rewrite omap_dots.
Qed.

Lemma binds_so_far_bind_calls tr :
  binds_so_far tr = length (bind_calls tr).
Proof.
  unfold binds_so_far, bind_calls.
  induction tr as [|[] tr IH]; cbn; auto.
Qed.

(** While the binds fail, the loop goes on: one bind per entry, in the
    order of the entries, each failure told to the logger. *)
Lemma try_entries_prefix_rejected u p pre rest :
  forall tr,
  (forall i e, pre !! i = Some e ->
     bind_reply w (binds_so_far tr + i) (objectName e) p <> None) ->
  exists tr',
    try_entries w u p (pre ++ rest) tr = try_entries w u p rest (tr ++ tr') /\
    bind_calls tr' = map (entry_bind p) pre /\
    accepted_binds tr' = [] /\
    (forall i e error, pre !! i = Some e ->
       bind_reply w (binds_so_far tr + i) (objectName e) p = Some error ->
       failure_logged e error ∈ tr').
Proof.
  induction pre as [|e pre IH]; intros tr Hrej.
  - exists []. rewrite app_nil_r. repeat split; done.
  - pose proof (Hrej 0 e eq_refl) as H0. rewrite Nat.add_0_r in H0.
    destruct (bind_reply w (binds_so_far tr) (objectName e) p)
      as [error|] eqn:Hreply; [clear H0|done].
    assert (forall i, binds_so_far (tr ++ rejected_events e p error) + i
                      = binds_so_far tr + S i) as Hnext
      by (intros i; rewrite binds_so_far_app; cbn; lia).
    destruct (IH (tr ++ rejected_events e p error))
      as (tr' & Heq & Hb & Ha & Hlog).
    { intros i e' Hi. rewrite Hnext. by apply Hrej. }
    exists (rejected_events e p error ++ tr').
    rewrite <- app_comm_cons, (try_entries_rejected _ _ _ _ _ _ Hreply).
    rewrite Heq, app_assoc, bind_calls_app, accepted_binds_app, Hb, Ha.
    repeat split; try done.
    intros [|i] e' error' Hi Hreply'; apply elem_of_app.
    + injection Hi as <-. rewrite Nat.add_0_r, Hreply in Hreply'.
      injection Hreply' as <-. left. unfold rejected_events.
      rewrite !elem_of_cons. auto.
    + right. apply (Hlog i); [done|]. by rewrite Hnext.
Qed.

(** The loop never throws; its binds are for the first entries, in their
    order; at most one of them is accepted. *)
Lemma try_entries_returns u p entries :
  forall tr, exists returned tr',
    try_entries w u p entries tr = (inr returned, tr ++ tr') /\
    bind_calls tr' = map (entry_bind p) (take (length (bind_calls tr')) entries) /\
    length (accepted_binds tr') <= 1.
Proof.
  induction entries as [|e entries IH]; intros tr.
  - exists None, []. rewrite app_nil_r. cbn. auto.
  - destruct (bind_reply w (binds_so_far tr) (objectName e) p)
      as [error|] eqn:Hreply.
    + rewrite (try_entries_rejected _ _ _ _ _ _ Hreply).
      destruct (IH (tr ++ rejected_events e p error)) as (r & tr' & -> & Hb & Ha).
      exists r, (rejected_events e p error ++ tr').
      rewrite app_assoc. split; [done|].
      rewrite bind_calls_app, accepted_binds_app. cbn. split; [|done].
      by rewrite Hb at 1.
    + rewrite (try_entries_accepted _ _ _ _ _ Hreply).
      exists (Some (Authenticated u)), (accepted_events w u p e).
      cbn. auto.
Qed.

Lemma try_entries_head u p entry post tr :
  exists returned tr' later,
    try_entries w u p (entry :: post) tr = (inr returned, tr ++ tr') /\
    bind_calls tr' = entry_bind p entry :: later.
Proof.
  destruct (bind_reply w (binds_so_far tr) (objectName entry) p)
    as [error|] eqn:Hreply.
  - rewrite (try_entries_rejected _ _ _ _ _ _ Hreply).
    destruct (try_entries_returns u p post (tr ++ rejected_events entry p error))
      as (r & tr' & -> & _ & _).
    exists r, (rejected_events entry p error ++ tr'), (bind_calls tr').
    by rewrite app_assoc, bind_calls_app.
  - rewrite (try_entries_accepted _ _ _ _ _ Hreply).
    by exists (Some (Authenticated u)), (accepted_events w u p entry), [].
Qed.

Lemma binds_so_far_found this filter entries msg :
  binds_so_far (search_events this filter entries ++ [Logger msg])
  = length (service_binds this).
Proof.
  rewrite binds_so_far_bind_calls, bind_calls_app, bind_calls_search_events.
  cbn. by rewrite app_nil_r.
Qed.

(** The run of [_authenticate] once the search has ended with the status
    of success, in terms of the loop. *)
Lemma run_loop this u p filter response :
  search_answers w this u filter response ->
  end_ response = inr 0%N ->
  run w this (both u p)
  = match try_entries w u p (searchEntry response)
            (search_events this filter (searchEntry response)
             ++ [Logger (pretty (length (searchEntry response))
                         +:+ " entries found")]) with
    | (inr (Some result), tr) => (inr result, tr ++ [Unbind])
    | (inr None, tr) =>
        (inr Null,
         (tr ++ [Logger ("could not authenticate " +:+ u)]) ++ [Unbind])
    | (inl e, tr) => (inl e, tr ++ [Unbind])
    end.
Proof.
  intros Hsearch Hend.
  rewrite (run_search_answers _ _ _ _ _ Hsearch).
  unfold try_finally, after_search, logger.
  run_step. rewrite Hend. cbv beta match. cbn [N.eqb].
  repeat run_step. unfold bindM at 1.
  destruct (try_entries _ _ _ _ _) as [[e|[result|]] tr]; try reflexivity.
Qed.

Lemma bind_calls_found this filter entries msg :
  bind_calls (search_events this filter entries ++ [Logger msg])
  = service_binds this.
Proof.
  rewrite bind_calls_app, bind_calls_search_events. cbn. by rewrite app_nil_r.
Qed.

Lemma accepted_binds_found this filter entries msg :
  accepted_binds (search_events this filter entries ++ [Logger msg])
  = service_binds this.
Proof.
  rewrite accepted_binds_app, accepted_binds_search_events.
  cbn. by rewrite app_nil_r.
Qed.

(** *** The claims about [_authenticate] *)

(** C4.  When the search has succeeded, the binds of the call are the
    service bind (if configured) followed by one bind with the password
    for each of the first entries, in the order the server returned them,
    and at most one bind for an entry is accepted.  If every bind for the
    entries before [entry] failed and the bind for [entry] is accepted,
    the call returns [{ username }]; the binds for the entries stop with
    the one for [entry], which is the only one accepted, so that no entry
    after it is tried; the session is closed last. *)
Theorem first_accepting_entry_wins this u p filter response :
  search_answers w this u filter response ->
  end_ response = inr 0%N ->
  (exists n,
     bind_calls (trace_of w this (both u p))
     = service_binds this
       ++ map (entry_bind p) (take n (searchEntry response)) /\
     length (accepted_binds (trace_of w this (both u p)))
     <= length (service_binds this) + 1) /\
  (forall pre entry post,
     searchEntry response = pre ++ entry :: post ->
     (forall i e, pre !! i = Some e ->
        bind_reply w (length (service_binds this) + i) (objectName e) p
        <> None) ->
     bind_reply w (length (service_binds this) + length pre)
       (objectName entry) p = None ->
     result_of w this (both u p) = inr (Authenticated u) /\
     bind_calls (trace_of w this (both u p))
     = service_binds this ++ map (entry_bind p) (pre ++ [entry]) /\
     accepted_binds (trace_of w this (both u p))
     = service_binds this ++ [entry_bind p entry] /\
     last (trace_of w this (both u p)) = Some Unbind).
Proof.
  intros Hsearch Hend. unfold result_of, trace_of.
  rewrite (run_loop _ _ _ _ _ Hsearch Hend).
  set (tr0 := search_events _ _ _ ++ _).
  assert (binds_so_far tr0 = length (service_binds this)) as Hn
    by apply binds_so_far_found.
  assert (bind_calls tr0 = service_binds this) as Hb0
    by apply bind_calls_found.
  assert (accepted_binds tr0 = service_binds this) as Ha0
    by apply accepted_binds_found.
  split.
  - destruct (try_entries_returns u p (searchEntry response) tr0)
      as (r & tr' & -> & Hb & Ha).
    exists (length (bind_calls tr')).
    destruct r as [result|]; cbn [snd];
      rewrite !bind_calls_app, !accepted_binds_app, !length_app, Hb0, Ha0;
      cbn; rewrite ?app_nil_r; (split; [by rewrite <- Hb | lia]).
  - intros pre entry post -> Hrej Hacc.
    destruct (try_entries_prefix_rejected u p pre (entry :: post) tr0)
      as (tr' & -> & Hb & Ha & _); [by rewrite Hn|].
    rewrite try_entries_accepted; last first.
    { rewrite binds_so_far_app, Hn, (binds_so_far_bind_calls tr'), Hb.
      by rewrite length_map. }
    cbn [fst snd]. split; [done|].
    rewrite !bind_calls_app, !accepted_binds_app, Hb, Ha, Hb0, Ha0, last_snoc.
    cbn. rewrite ?app_nil_r, map_app, <- ?app_assoc. done.
Qed.

(** C5.  When the search has succeeded with N entries and the bind for
    each of them fails, the call makes one bind per entry, in the order of
    the entries, N in all besides the service bind; none is accepted; the
    call returns [null] and throws nothing. *)
Theorem all_entries_rejected this u p filter response :
  search_answers w this u filter response ->
  end_ response = inr 0%N ->
  (forall i e, searchEntry response !! i = Some e ->
     bind_reply w (length (service_binds this) + i) (objectName e) p <> None) ->
  result_of w this (both u p) = inr Null /\
  bind_calls (trace_of w this (both u p))
  = service_binds this ++ map (entry_bind p) (searchEntry response) /\
  length (bind_calls (trace_of w this (both u p)))
  = length (service_binds this) + length (searchEntry response) /\
  accepted_binds (trace_of w this (both u p)) = service_binds this.
Proof.
  intros Hsearch Hend Hrej. unfold result_of, trace_of.
  rewrite (run_loop _ _ _ _ _ Hsearch Hend).
  set (tr0 := search_events _ _ _ ++ _).
  assert (binds_so_far tr0 = length (service_binds this)) as Hn
    by apply binds_so_far_found.
  assert (bind_calls tr0 = service_binds this) as Hb0
    by apply bind_calls_found.
  assert (accepted_binds tr0 = service_binds this) as Ha0
    by apply accepted_binds_found.
  destruct (try_entries_prefix_rejected u p (searchEntry response) [] tr0)
    as (tr' & Heq & Hb & Ha & _); [by rewrite Hn|].
  rewrite app_nil_r in Heq. rewrite Heq. cbn [try_entries ret fst snd].
  split; [done|].
  rewrite !bind_calls_app, !accepted_binds_app, Hb, Ha, Hb0, Ha0.
  cbn. rewrite !app_nil_r, length_app, length_map. done.
Qed.

(** C8.  When the ['end'] event of the search carries a status other
    than 0, the call throws
    [Error('unexpected search response status: ' + status)], whatever
    entries the response produced before; the only bind made is the
    service bind (if configured), none for an entry; the session is
    closed. *)
Theorem search_status_is_fatal this u p filter response status :
  search_answers w this u filter response ->
  end_ response = inr status ->
  status <> 0%N ->
  result_of w this (both u p)
  = inl (new_Error ("unexpected search response status: " +:+ pretty status)) /\
  trace_of w this (both u p)
  = search_events this filter (searchEntry response) ++ [Unbind] /\
  bind_calls (trace_of w this (both u p)) = service_binds this.
Proof.
  intros Hsearch Hend Hstatus. unfold result_of, trace_of.
  rewrite (run_search_answers _ _ _ _ _ Hsearch).
  unfold try_finally, after_search.
  run_step. rewrite Hend. cbv beta match.
  apply N.eqb_neq in Hstatus. rewrite Hstatus.
  run_step. cbn [fst snd]. split; [reflexivity|]. split; [reflexivity|].
  unfold client_unbind, emit. cbn [snd].
  rewrite bind_calls_app, bind_calls_search_events. cbn. by rewrite app_nil_r.
Qed.

(** C2 (as amended).  In the loop every failure of a bind is absorbed,
    a refusal of the password and a failure of the transport alike: when
    the search has succeeded the call does not throw, and as long as the
    binds fail, with whatever error, each failure is told to the logger
    and the next entry is tried. *)
Theorem entry_bind_errors_absorbed this u p filter response :
  search_answers w this u filter response ->
  end_ response = inr 0%N ->
  (exists result, result_of w this (both u p) = inr result) /\
  (forall pre entry post,
     searchEntry response = pre ++ entry :: post ->
     (forall i e, pre !! i = Some e ->
        exists error,
          bind_reply w (length (service_binds this) + i) (objectName e) p
          = Some error) ->
     (exists later,
        bind_calls (trace_of w this (both u p))
        = service_binds this ++ map (entry_bind p) (pre ++ [entry]) ++ later) /\
     (forall i e error, pre !! i = Some e ->
        bind_reply w (length (service_binds this) + i) (objectName e) p
        = Some error ->
        failure_logged e error ∈ trace_of w this (both u p))).
Proof.
  intros Hsearch Hend. unfold result_of, trace_of.
  rewrite (run_loop _ _ _ _ _ Hsearch Hend).
  set (tr0 := search_events _ _ _ ++ _).
  assert (binds_so_far tr0 = length (service_binds this)) as Hn
    by apply binds_so_far_found.
  assert (bind_calls tr0 = service_binds this) as Hb0
    by apply bind_calls_found.
  split.
  - destruct (try_entries_returns u p (searchEntry response) tr0)
      as (r & tr' & -> & _).
    destruct r; by eexists.
  - intros pre entry post -> Hrej.
    destruct (try_entries_prefix_rejected u p pre (entry :: post) tr0)
      as (tr' & -> & Hb & _ & Hlog).
    { intros i e Hi. rewrite Hn. destruct (Hrej i e Hi) as [error ->]. done. }
    rewrite Hn in Hlog.
    destruct (try_entries_head u p entry post (tr0 ++ tr'))
      as (r & tr'' & later & -> & Hb'').
    split.
    + exists later.
      destruct r as [result|]; cbn [snd];
        rewrite !bind_calls_app, Hb0, Hb, Hb'', map_app; cbn;
        rewrite ?app_nil_r, <- ?app_assoc; done.
    + intros i e error Hi Hreply.
      pose proof (Hlog i e error Hi Hreply) as Hin.
      destruct r as [result|]; cbn [snd]; rewrite !elem_of_app; auto.
Qed.

(** C1 (as amended).  When the user name or the password is missing
    ([undefined]), the call returns [null] at once: the only thing it
    does is to tell the logger; no client is created. *)
Theorem missing_credentials_return_null this credentials :
  username credentials = None \/ password credentials = None ->
  result_of w this credentials = inr Null /\
  trace_of w this credentials
  = [Logger "require `username` and `password` to authenticate!"].
Proof.
  unfold result_of, trace_of, run, _authenticate.
  intros [-> | ->]; [|destruct (username credentials)]; done.
Qed.

Lemma filter_Unbind_inner work :
  Forall inner work -> List.filter is_Unbind work = [].
Proof.
  induction 1 as [|ev work [Hev _] _ IH]; [done|].
  cbn [List.filter]. by rewrite Hev.
Qed.

Lemma only_inner_ret {A} (a : A) : only_inner (ret a).
Proof. intros tr. exists []. by rewrite app_nil_r. Qed.

Lemma only_inner_throw {A} (e : Error) : only_inner (@throw A e).
Proof. intros tr. exists []. by rewrite app_nil_r. Qed.

Lemma only_inner_lift {A} (r : Error + A) : only_inner (lift r).
Proof. intros tr. exists []. by rewrite app_nil_r. Qed.

Lemma only_inner_emit ev : inner ev -> only_inner (emit ev).
Proof. intros Hev tr. exists [ev]. split; [done|]. by constructor. Qed.

Lemma only_inner_bindM {A B} (m : M A) (k : A -> M B) :
  only_inner m -> (forall a, only_inner (k a)) -> only_inner (bindM m k).
Proof.
  intros Hm Hk tr. unfold bindM.
  destruct (Hm tr) as (tr1 & H1 & F1).
  destruct (m tr) as [[e|a] tr']; cbn [snd] in *; subst tr'.
  - by exists tr1.
  - destruct (Hk a (tr ++ tr1)) as (tr2 & H2 & F2).
    exists (tr1 ++ tr2). rewrite H2, app_assoc. split; [done|].
    by apply Forall_app.
Qed.

Lemma only_inner_try_catch {A} (body : M A) (handler : Error -> M A) :
  only_inner body -> (forall e, only_inner (handler e)) ->
  only_inner (try_catch body handler).
Proof.
  intros Hm Hk tr. unfold try_catch.
  destruct (Hm tr) as (tr1 & H1 & F1).
  destruct (body tr) as [[e|a] tr']; cbn [snd] in *; subst tr'.
  - destruct (Hk e (tr ++ tr1)) as (tr2 & H2 & F2).
    exists (tr1 ++ tr2). rewrite H2, app_assoc. split; [done|].
    by apply Forall_app.
  - by exists tr1.
Qed.

Lemma only_inner_client_bind dn p : only_inner (client_bind w dn p).
Proof. intros tr. eexists. split; [reflexivity|]. by constructor. Qed.

Ltac only_inner_step :=
  first [ apply only_inner_ret | apply only_inner_throw
        | apply only_inner_lift | apply only_inner_client_bind
        | apply only_inner_emit; done
        | apply only_inner_bindM; [|intros ?]
        | apply only_inner_try_catch; [|intros ?]
        | match goal with
          | |- only_inner (match ?x with _ => _ end) => destruct x
          end ].

Lemma only_inner_on_searchEntry emitted : only_inner (on_searchEntry emitted).
Proof.
  induction emitted as [|e es IH]; cbn [on_searchEntry]; unfold logger;
    repeat only_inner_step; done.
Qed.

Lemma only_inner_try_entries u p entries : only_inner (try_entries w u p entries).
Proof.
  induction entries as [|e es IH]; cbn [try_entries]; unfold logger;
    repeat only_inner_step.
  done.
Qed.

(** C3.  A call that creates a client closes the session exactly once,
    and does so last: the trace is the creation of the client, then the
    work on the session, which neither creates a client nor closes the
    session, then [unbind].  This holds for every behaviour of the
    server, hence for every outcome: authentication, exhaustion of the
    entries, a refused service bind, a failed search, or any other
    throw. *)
Theorem session_closed_exactly_once this u p :
  createClient_throws w (_clientOpts this) = None ->
  (exists work,
     trace_of w this (both u p)
     = CreateClient (_clientOpts this) :: work ++ [Unbind] /\
     Forall inner work) /\
  length (List.filter is_Unbind (trace_of w this (both u p))) = 1.
Proof.
  intros Hcreate.
  unfold trace_of, run, _authenticate, both. cbn [username password].
  unfold createClient. do 2 run_step. rewrite Hcreate. run_step.
  unfold try_finally.
  match goal with
  | |- context [ let (r, tr') := ?body ?tr0 in _ ] =>
      assert (only_inner body) as Hbody; [|destruct (Hbody tr0) as (work & Hw & Fw);
                                           destruct (body tr0) as [r tr']]
  end.
  { unfold client_connect, client_search, logger.
    repeat first [ only_inner_step
                 | apply only_inner_on_searchEntry
                 | apply only_inner_try_entries ]. }
  cbn [snd] in *. subst tr'.
  unfold client_unbind, emit. cbn [snd app]. split; [by exists work|].
  cbn [List.filter is_Unbind].
  rewrite List.filter_app, length_app. cbn [app List.filter is_Unbind length].
  by rewrite (filter_Unbind_inner _ Fw).
Qed.

End AuthenticateProperties.

(** *** Witnesses and counterexamples for [_authenticate] *)

Lemma sample_search_answers user_reply status :
  search_answers (sample_world user_reply status) sample_this "alice"
    "(uid=alice)" (two_entries status).
Proof.
  repeat split.
  intros c [= <-]. reflexivity.
Qed.

(** C1, the claim as stated, fails for an empty password: a client is
    created, the search and the binds are made, and a server that takes a
    bind with an empty password as anonymous makes the call return
    [{ username }]. *)
Lemma empty_password_opens_session :
  password (both "alice" "") = Some "" /\
  result_of (sample_world anonymous_accepts 0) sample_this (both "alice" "")
    = inr (Authenticated "alice") /\
  head (trace_of (sample_world anonymous_accepts 0) sample_this (both "alice" ""))
    = Some (CreateClient (_clientOpts sample_this)) /\
  bind_calls (trace_of (sample_world anonymous_accepts 0) sample_this
                (both "alice" ""))
    = [("svc", "p"); ("uid=alice,dc=x", "")].
Proof. repeat split; vm_compute; reflexivity. Qed.

Lemma missing_credentials_return_null_witness :
  result_of (sample_world second_accepts 0) sample_this
    {| username := Some "alice"; password := None |} = inr Null /\
  trace_of (sample_world second_accepts 0) sample_this
    {| username := Some "alice"; password := None |}
  = [Logger "require `username` and `password` to authenticate!"].
Proof.
  apply missing_credentials_return_null. right. reflexivity.
Defined.

(** C2, the claim as stated, fails: the bind for the first entry fails
    with a [ConnectionError]; it is not thrown, the second entry is tried
    and the call returns [{ username }]. *)
Lemma connection_error_is_absorbed :
  bind_reply (sample_world first_resets 0) 1 "uid=alice,dc=x" "secret"
    = Some connection_reset /\
  kind connection_reset = ConnectionError /\
  result_of (sample_world first_resets 0) sample_this alice_secret
    = inr (Authenticated "alice") /\
  bind_calls (trace_of (sample_world first_resets 0) sample_this alice_secret)
    = [("svc", "p"); ("uid=alice,dc=x", "secret"); ("uid=alice2,dc=x", "secret")].
Proof. repeat split; vm_compute; reflexivity. Qed.

Lemma entry_bind_errors_absorbed_witness :
  (exists result,
     result_of (sample_world first_resets 0) sample_this alice_secret
     = inr result) /\
  (exists later,
     bind_calls (trace_of (sample_world first_resets 0) sample_this alice_secret)
     = service_binds sample_this
       ++ map (entry_bind "secret") ([alice] ++ [alice2]) ++ later) /\
  failure_logged alice connection_reset
    ∈ trace_of (sample_world first_resets 0) sample_this alice_secret.
Proof.
  destruct (entry_bind_errors_absorbed (sample_world first_resets 0) sample_this
              "alice" "secret" "(uid=alice)" (two_entries 0))
    as [Hreturns Hnext].
  - apply sample_search_answers.
  - reflexivity.
  - split; [exact Hreturns|].
    destruct (Hnext [alice] alice2 []) as [Hbinds Hlogged]; [reflexivity| |].
    + intros [|i] e; [intros [= <-]; by eexists | intros [=]].
    + split; [exact Hbinds|]. by apply (Hlogged 0).
Defined.

Lemma session_closed_exactly_once_witness :
  (exists work,
     trace_of (sample_world second_accepts 0) sample_this alice_secret
     = CreateClient (_clientOpts sample_this) :: work ++ [Unbind] /\
     Forall inner work) /\
  length (List.filter is_Unbind
            (trace_of (sample_world second_accepts 0) sample_this alice_secret))
  = 1.
Proof.
  apply (session_closed_exactly_once (sample_world second_accepts 0) sample_this
           "alice" "secret").
  reflexivity.
Defined.

(** The session is closed once on each kind of outcome. *)
Example closed_once_on_each_outcome :
  let closed w this :=
    length (List.filter is_Unbind (trace_of w this alice_secret)) in
  (* authenticated *)
  closed (sample_world second_accepts 0) sample_this = 1 /\
  (* entries exhausted *)
  closed (sample_world nobody_accepts 0) sample_this = 1 /\
  (* search failed *)
  closed (sample_world nobody_accepts 32) sample_this = 1 /\
  (* service bind refused *)
  closed (sample_world nobody_accepts 0)
    (snd (configure no_files constructor
            {| uri := "ldap://host"; certificateAuthorities := None;
               checkCertificate := None;
               bind := Some {| dn := "svc"; bind_password := "wrong" |};
               base := "dc=x"; filter := None |})) = 1 /\
  (* filter cannot be rendered *)
  closed (sample_world nobody_accepts 0)
    (snd (configure no_files constructor
            {| uri := "ldap://host"; certificateAuthorities := None;
               checkCertificate := None; bind := None;
               base := "dc=x"; filter := Some "(uid={{login}})" |})) = 1.
Proof. repeat split; vm_compute; reflexivity. Qed.

Lemma first_accepting_entry_wins_witness :
  result_of (sample_world second_accepts 0) sample_this alice_secret
    = inr (Authenticated "alice") /\
  bind_calls (trace_of (sample_world second_accepts 0) sample_this alice_secret)
    = service_binds sample_this ++ map (entry_bind "secret") ([alice] ++ [alice2]) /\
  accepted_binds (trace_of (sample_world second_accepts 0) sample_this alice_secret)
    = service_binds sample_this ++ [entry_bind "secret" alice2] /\
  last (trace_of (sample_world second_accepts 0) sample_this alice_secret)
    = Some Unbind.
Proof.
  destruct (first_accepting_entry_wins (sample_world second_accepts 0)
              sample_this "alice" "secret" "(uid=alice)" (two_entries 0))
    as [_ Hfirst].
  - apply sample_search_answers.
  - reflexivity.
  - apply (Hfirst [alice] alice2 []).
    + reflexivity.
    + intros [|i] e; [intros [= <-]; vm_compute; discriminate | intros [=]].
    + vm_compute. reflexivity.
Defined.

(** First match wins: of three entries only the second accepts; the third
    is never tried. *)
Example third_entry_never_tried :
  let carol := {| objectName := "uid=alice3,dc=x"; attributes := [] |} in
  let w :=
    {| createClient_throws := fun _ => None;
       connect_reply := None;
       bind_reply := fun _ dn _ =>
         if String.eqb dn "uid=alice,dc=x" then Some invalid_credentials else None;
       search_reply := fun _ _ =>
         inr {| searchEntry := [alice; alice2; carol]; end_ := inr 0%N |};
       JSON_stringify := objectName |} in
  result_of w sample_this alice_secret = inr (Authenticated "alice") /\
  bind_calls (trace_of w sample_this alice_secret)
    = [("svc", "p"); ("uid=alice,dc=x", "secret"); ("uid=alice2,dc=x", "secret")].
Proof. repeat split; vm_compute; reflexivity. Qed.

Lemma all_entries_rejected_witness :
  result_of (sample_world nobody_accepts 0) sample_this alice_secret = inr Null /\
  bind_calls (trace_of (sample_world nobody_accepts 0) sample_this alice_secret)
    = service_binds sample_this ++ map (entry_bind "secret") [alice; alice2] /\
  length (bind_calls (trace_of (sample_world nobody_accepts 0) sample_this
                        alice_secret))
    = length (service_binds sample_this) + 2 /\
  accepted_binds (trace_of (sample_world nobody_accepts 0) sample_this alice_secret)
    = service_binds sample_this.
Proof.
  apply (all_entries_rejected (sample_world nobody_accepts 0) sample_this
           "alice" "secret" "(uid=alice)" (two_entries 0)).
  - apply sample_search_answers.
  - reflexivity.
  - intros [|[|i]] e; [intros [= <-]; vm_compute; discriminate ..| intros [=]].
Defined.

Lemma search_status_is_fatal_witness :
  result_of (sample_world nobody_accepts 32) sample_this alice_secret
  = inl (new_Error ("unexpected search response status: " +:+ pretty 32%N)) /\
  trace_of (sample_world nobody_accepts 32) sample_this alice_secret
  = search_events sample_this "(uid=alice)" [alice; alice2] ++ [Unbind] /\
  bind_calls (trace_of (sample_world nobody_accepts 32) sample_this alice_secret)
  = service_binds sample_this.
Proof.
  apply (search_status_is_fatal (sample_world nobody_accepts 32) sample_this
           "alice" "secret" "(uid=alice)" (two_entries 32) 32%N).
  - apply sample_search_answers.
  - reflexivity.
  - discriminate.
Defined.

(** ** configure *)

(** C9.  [configure] sets [rejectUnauthorized] to the [checkCertificate] of
    the configuration, and to [true] when the configuration has none; a
    [configure] that completes stores the [filter] of the configuration,
    and [(uid={{name}})] when the configuration has none.  It completes
    when every certificate file can be read, hence always when no
    certificate file is configured. *)
Theorem configure_defaults
    (readFile : string -> Error + string) (this : AuthLdap) (conf : Conf) :
  (exists opts,
     _clientOpts (snd (configure readFile this conf)) = Some opts /\
     rejectUnauthorized (tlsOptions opts)
       = Some (match checkCertificate conf with Some b => b | None => true end)) /\
  (fst (configure readFile this conf) = inr tt ->
   _searchFilter (snd (configure readFile this conf))
     = Some (match filter conf with Some f => f | None => "(uid={{name}})" end)) /\
  (certificateAuthorities conf = None ->
   fst (configure readFile this conf) = inr tt).
Proof.
  unfold configure.
  destruct (certificateAuthorities conf) as [paths|];
    [destruct (read_all readFile paths)|];
    cbn [fst snd _clientOpts _searchFilter tlsOptions rejectUnauthorized
         set_tlsOptions set_ca set_rejectUnauthorized];
    (split; [eexists; split; [reflexivity|];
             by destruct (checkCertificate conf) | ]);
    (split; [try done; by destruct (filter conf) | done]).
Qed.

Lemma configure_defaults_witness :
  (exists opts,
     _clientOpts (snd (configure no_files constructor sample_conf)) = Some opts /\
     rejectUnauthorized (tlsOptions opts) = Some true) /\
  _searchFilter (snd (configure no_files constructor sample_conf))
    = Some "(uid={{name}})".
Proof.
  destruct (configure_defaults no_files constructor sample_conf)
    as (Hreject & Hfilter & Hdone).
  split; [exact Hreject|].
  apply Hfilter. apply Hdone. reflexivity.
Defined.

(* ===================================================================== *)
(** * Part III: further properties of the code *)
(* ===================================================================== *)

(** ** The other paths of [_authenticate] *)

Section AuthenticatePaths.

Variable w : World.

Ltac exec_step :=
  first [ rewrite bindM_assoc | rewrite bindM_emit | rewrite bindM_ret
        | rewrite bindM_throw | rewrite bindM_lift
        | rewrite bindM_on_searchEntry ];
  cbv beta match.

Lemma _authenticate_session this u p :
  _authenticate w this (both u p)
  = (createClient w (_clientOpts this);;;
     try_finally (session_body w this u p) client_unbind).
Proof. reflexivity. Qed.

Lemma try_finally_unbind {A} (body : M A) tr :
  try_finally body client_unbind tr
  = (fst (body tr), snd (body tr) ++ [Unbind]).
Proof. unfold try_finally, client_unbind, emit. by destruct (body tr). Qed.

(** With a client, the call is the work on the session, then [unbind]. *)
Lemma run_session this u p :
  createClient_throws w (_clientOpts this) = None ->
  run w this (both u p)
  = (fst (session_body w this u p [CreateClient (_clientOpts this)]),
     snd (session_body w this u p [CreateClient (_clientOpts this)]) ++ [Unbind]).
Proof.
  intros Hcreate. unfold run. rewrite _authenticate_session.
  unfold createClient. do 2 exec_step. rewrite Hcreate. exec_step.
  apply try_finally_unbind.
Qed.

(** The work on the session up to the rendering of the filter. *)
Lemma session_body_bound this u p :
  connect_reply w = None ->
  (forall c, _credentials this = Some c ->
             bind_reply w 0 (dn c) (bind_password c) = None) ->
  session_body w this u p [CreateClient (_clientOpts this)]
  = (filter <- lift (evalFilter_this (_searchFilter this) u);;
     response <- client_search w (_searchBase this) filter;;
     entries <- on_searchEntry (searchEntry response);;
     status <- lift (end_ response);;
     (if N.eqb status 0 then ret tt
      else throw (new_Error ("unexpected search response status: "
                             +:+ pretty status)));;;
     logger (pretty (length entries) +:+ " entries found");;;
     returned <- try_entries w u p entries;;
     match returned with
     | Some result => ret result
     | None => logger ("could not authenticate " +:+ u);;; ret Null
     end) (bound_events this).
Proof.
  intros Hconnect Hservice.
  unfold session_body, bound_events, service_events, client_connect, logger.
  do 2 exec_step. rewrite Hconnect. exec_step.
  destruct (_credentials this) as [c|] eqn:Hc.
  - repeat exec_step. rewrite bindM_client_bind.
    cbn [app binds_so_far List.filter is_Bind length].
    rewrite (Hservice c eq_refl). cbv beta match.
    repeat exec_step. reflexivity.
  - repeat exec_step. reflexivity.
Qed.

(** X1.  When [createClient] throws, the call throws the same error and
    does nothing else: [createClient] is outside the [try], so [unbind]
    is not called. *)
Theorem createClient_failure_propagates this u p e :
  createClient_throws w (_clientOpts this) = Some e ->
  result_of w this (both u p) = inl e /\
  trace_of w this (both u p) = [CreateClient (_clientOpts this)].
Proof.
  intros Hcreate. unfold result_of, trace_of, run.
  rewrite _authenticate_session. unfold createClient.
  do 2 exec_step. rewrite Hcreate. by exec_step.
Qed.

(** X2.  When the connection fails, the call throws the error of the
    connection; no bind and no search is made, and the session is
    closed. *)
Theorem connect_failure_propagates this u p e :
  createClient_throws w (_clientOpts this) = None ->
  connect_reply w = Some e ->
  result_of w this (both u p) = inl e /\
  trace_of w this (both u p)
  = [CreateClient (_clientOpts this); Connect; Unbind].
Proof.
  intros Hcreate Hconnect. unfold result_of, trace_of.
  rewrite (run_session _ _ _ Hcreate).
  unfold session_body, client_connect.
  do 2 exec_step. rewrite Hconnect. by exec_step.
Qed.

(** X3.  When the server refuses the bind of the service account, the
    call throws the error of that bind: nothing is searched, no entry is
    tried, and the session is closed. *)
Theorem service_bind_failure_propagates this u p c e :
  createClient_throws w (_clientOpts this) = None ->
  connect_reply w = None ->
  _credentials this = Some c ->
  bind_reply w 0 (dn c) (bind_password c) = Some e ->
  result_of w this (both u p) = inl e /\
  trace_of w this (both u p)
  = [CreateClient (_clientOpts this); Connect;
     Logger ("attempting to bind with as " +:+ dn c +:+ "...");
     Bind (dn c) (bind_password c) (Some e);
     Unbind].
Proof.
  intros Hcreate Hconnect Hc Hbind. unfold result_of, trace_of.
  rewrite (run_session _ _ _ Hcreate).
  unfold session_body, client_connect, logger.
  do 2 exec_step. rewrite Hconnect. exec_step. rewrite Hc.
  repeat exec_step. rewrite bindM_client_bind.
  cbn [app binds_so_far List.filter is_Bind length].
  by rewrite Hbind.
Qed.

(** X4.  When the filter cannot be rendered, the call throws the error
    of the rendering before anything is sent: no search is made, and the
    session is closed. *)
Theorem filter_failure_propagates this u p e :
  createClient_throws w (_clientOpts this) = None ->
  connect_reply w = None ->
  (forall c, _credentials this = Some c ->
             bind_reply w 0 (dn c) (bind_password c) = None) ->
  evalFilter_this (_searchFilter this) u = inl e ->
  result_of w this (both u p) = inl e /\
  trace_of w this (both u p) = bound_events this ++ [Unbind] /\
  List.filter is_Search (trace_of w this (both u p)) = [].
Proof.
  intros Hcreate Hconnect Hservice Hfilter. unfold result_of, trace_of.
  rewrite (run_session _ _ _ Hcreate),
    (session_body_bound _ _ _ Hconnect Hservice).
  exec_step. rewrite Hfilter. cbn [fst snd]. split; [done|]. split; [done|].
  unfold bound_events, service_events.
  destruct (_credentials this); reflexivity.
Qed.

(** X5.  When the search is refused, the call throws the error of the
    search; no entry is tried, and the session is closed. *)
Theorem search_failure_propagates this u p filter e :
  createClient_throws w (_clientOpts this) = None ->
  connect_reply w = None ->
  (forall c, _credentials this = Some c ->
             bind_reply w 0 (dn c) (bind_password c) = None) ->
  evalFilter_this (_searchFilter this) u = inr filter ->
  search_reply w (_searchBase this) filter = inl e ->
  result_of w this (both u p) = inl e /\
  trace_of w this (both u p)
  = bound_events this ++ [Search (_searchBase this) "sub" filter; Unbind] /\
  bind_calls (trace_of w this (both u p)) = service_binds this.
Proof.
  intros Hcreate Hconnect Hservice Hfilter Hsearch. unfold result_of, trace_of.
  rewrite (run_session _ _ _ Hcreate),
    (session_body_bound _ _ _ Hconnect Hservice).
  exec_step. rewrite Hfilter. unfold client_search.
  repeat exec_step. rewrite Hsearch. cbn [fst snd].
  split; [done|]. rewrite <- app_assoc. split; [done|].
  unfold bound_events, service_events, service_binds.
  destruct (_credentials this); reflexivity.
Qed.

(** X6.  When the response of the search ends with an ['error'] event,
    the call throws its error, whatever entries came before; no entry is
    tried, and the session is closed. *)
Theorem search_error_event_propagates this u p filter response e :
  search_answers w this u filter response ->
  end_ response = inl e ->
  result_of w this (both u p) = inl e /\
  trace_of w this (both u p)
  = search_events this filter (searchEntry response) ++ [Unbind] /\
  bind_calls (trace_of w this (both u p)) = service_binds this.
Proof.
  intros Hsearch Hend. unfold result_of, trace_of.
  rewrite (run_search_answers _ _ _ _ _ _ Hsearch), try_finally_unbind.
  unfold after_search. exec_step. rewrite Hend. cbn [fst snd].
  split; [done|]. split; [done|].
  rewrite bind_calls_app, bind_calls_search_events. cbn. by rewrite app_nil_r.
Qed.

End AuthenticatePaths.

(** ** What the outcomes of [_authenticate] and [test] tell *)

Section AuthenticateOutcomes.

Variable w : World.

Ltac exec_step :=
  first [ rewrite bindM_assoc | rewrite bindM_emit | rewrite bindM_ret
        | rewrite bindM_throw | rewrite bindM_lift
        | rewrite bindM_on_searchEntry ];
  cbv beta match.

(** The loop either runs to its end, with one failed bind per entry, or
    returns at the first accepted bind. *)
Lemma try_entries_inv u p entries :
  forall tr, exists tr',
    snd (try_entries w u p entries tr) = tr ++ tr' /\
    ((fst (try_entries w u p entries tr) = inr None /\
      bind_calls tr' = map (entry_bind p) entries /\
      accepted_binds tr' = []) \/
     (fst (try_entries w u p entries tr) = inr (Some (Authenticated u)) /\
      exists pre e post,
        entries = pre ++ e :: post /\
        bind_calls tr' = map (entry_bind p) (pre ++ [e]) /\
        accepted_binds tr' = [entry_bind p e])).
Proof.
  induction entries as [|e entries IH]; intros tr.
  - exists []. rewrite app_nil_r. split; [done|]. by left.
  - destruct (bind_reply w (binds_so_far tr) (objectName e) p)
      as [error|] eqn:Hreply.
    + rewrite (try_entries_rejected _ _ _ _ _ _ _ Hreply).
      destruct (IH (tr ++ rejected_events e p error))
        as (tr' & Htr & [(Hr & Hb & Ha) | (Hr & pre & e' & post & -> & Hb & Ha)]).
      * exists (rejected_events e p error ++ tr').
        rewrite Htr, app_assoc, bind_calls_app, accepted_binds_app, Hb, Ha.
        split; [done|]. by left.
      * exists (rejected_events e p error ++ tr').
        rewrite Htr, app_assoc, bind_calls_app, accepted_binds_app, Hb, Ha.
        split; [done|]. right. split; [done|].
        by exists (e :: pre), e', post.
    + rewrite (try_entries_accepted _ _ _ _ _ _ Hreply).
      exists (accepted_events w u p e). split; [done|]. right.
      split; [done|]. by exists [], e, entries.
Qed.

(** A call with both credentials throws unless the search is answered and
    ends with the status 0. *)
Lemma run_throws_or_searched this u p :
  (exists e, result_of w this (both u p) = inl e) \/
  (exists filter response,
     search_answers w this u filter response /\ end_ response = inr 0%N).
Proof.
  unfold result_of.
  destruct (createClient_throws w (_clientOpts this)) as [e|] eqn:Hcreate.
  { left. exists e. unfold run. rewrite _authenticate_session.
    unfold createClient. do 2 exec_step. rewrite Hcreate. by exec_step. }
  rewrite (run_session _ _ _ _ Hcreate). cbn [fst].
  destruct (connect_reply w) as [e|] eqn:Hconnect.
  { left. exists e. unfold session_body, client_connect.
    do 2 exec_step. rewrite Hconnect. by exec_step. }
  destruct (_credentials this) as [c|] eqn:Hc.
  - destruct (bind_reply w 0 (dn c) (bind_password c)) as [e|] eqn:Hbind.
    { left. exists e. unfold session_body, client_connect, logger.
      do 2 exec_step. rewrite Hconnect. exec_step. rewrite Hc.
      repeat exec_step. rewrite bindM_client_bind.
      cbn [app binds_so_far List.filter is_Bind length].
      by rewrite Hbind. }
    assert (forall c', _credentials this = Some c' ->
                       bind_reply w 0 (dn c') (bind_password c') = None)
      as Hservice by (intros c'; rewrite Hc; by intros [= <-]).
    rewrite (session_body_bound _ _ _ _ Hconnect Hservice).
    exec_step.
    destruct (evalFilter_this (_searchFilter this) u) as [e|filter] eqn:Hfilter;
      [left; by exists e|].
    unfold client_search. repeat exec_step.
    destruct (search_reply w (_searchBase this) filter) as [e|response] eqn:Hsearch;
      [left; by exists e|].
    exec_step. exec_step.
    destruct (end_ response) as [e|status] eqn:Hend; [left; by exists e|].
    destruct (N.eqb_spec status 0) as [->|Hne].
    + right. by exists filter, response.
    + left. eexists. exec_step. reflexivity.
  - assert (forall c', _credentials this = Some c' ->
                       bind_reply w 0 (dn c') (bind_password c') = None)
      as Hservice by (intros c'; by rewrite Hc).
    rewrite (session_body_bound _ _ _ _ Hconnect Hservice).
    exec_step.
    destruct (evalFilter_this (_searchFilter this) u) as [e|filter] eqn:Hfilter;
      [left; by exists e|].
    unfold client_search. repeat exec_step.
    destruct (search_reply w (_searchBase this) filter) as [e|response] eqn:Hsearch;
      [left; by exists e|].
    exec_step. exec_step.
    destruct (end_ response) as [e|status] eqn:Hend; [left; by exists e|].
    destruct (N.eqb_spec status 0) as [->|Hne].
    + right. by exists filter, response.
    + left. eexists. exec_step. reflexivity.
Qed.

(** What a call that returns has done. *)
Lemma run_returns_inv this u p result :
  result_of w this (both u p) = inr result ->
  exists filter response,
    search_answers w this u filter response /\ end_ response = inr 0%N /\
    ((result = Null /\
      bind_calls (trace_of w this (both u p))
      = service_binds this ++ map (entry_bind p) (searchEntry response) /\
      accepted_binds (trace_of w this (both u p)) = service_binds this) \/
     (result = Authenticated u /\
      exists pre e post,
        searchEntry response = pre ++ e :: post /\
        bind_calls (trace_of w this (both u p))
        = service_binds this ++ map (entry_bind p) (pre ++ [e]) /\
        accepted_binds (trace_of w this (both u p))
        = service_binds this ++ [entry_bind p e])).
Proof.
  intros Hresult.
  destruct (run_throws_or_searched this u p)
    as [[e He] | (filter & response & Hsearch & Hend)]; [congruence|].
  exists filter, response. split; [done|]. split; [done|].
  revert Hresult. unfold result_of, trace_of.
  rewrite (run_loop _ _ _ _ _ _ Hsearch Hend).
  set (tr0 := search_events _ _ _ ++ _).
  assert (bind_calls tr0 = service_binds this) as Hb0
    by apply bind_calls_found.
  assert (accepted_binds tr0 = service_binds this) as Ha0
    by apply accepted_binds_found.
  destruct (try_entries_inv u p (searchEntry response) tr0)
    as (tr' & Htr & [(Hr & Hb & Ha) | (Hr & pre & e & post & Hentries & Hb & Ha)]);
    destruct (try_entries w u p (searchEntry response) tr0) as [r tr1];
    cbn [fst snd] in Htr, Hr; subst r tr1; cbn [fst snd]; intros [= <-].
  - left. split; [done|].
    rewrite !bind_calls_app, !accepted_binds_app, Hb0, Ha0, Hb, Ha.
    cbn. by rewrite !app_nil_r.
  - right. split; [done|]. exists pre, e, post. split; [done|].
    rewrite !bind_calls_app, !accepted_binds_app, Hb0, Ha0, Hb, Ha.
    cbn. by rewrite !app_nil_r.
Qed.

(** [test] is [_authenticate] with [null] turned into an error. *)
Lemma test_run this credentials :
  test w this credentials []
  = (match result_of w this credentials with
     | inr (Authenticated _) => inr tt
     | inr Null => inl (new_Error "could not authenticate user")
     | inl e => inl e
     end,
     trace_of w this credentials).
Proof.
  unfold test, bindM, result_of, trace_of, run.
  by destruct (_authenticate w this credentials []) as [[e|[u|]] tr].
Qed.

(** X7.  A call returns [{ username }] only with the user name it was
    given, and only when the search was answered with the status 0 and
    the server accepted a bind with the password given for one of the
    entries of the search; that bind is the last one of the call and the
    only one for an entry that was accepted. *)
Theorem authenticated_only_after_accepted_bind this u p u' :
  result_of w this (both u p) = inr (Authenticated u') ->
  u' = u /\
  exists filter response pre e post,
    search_answers w this u filter response /\
    end_ response = inr 0%N /\
    searchEntry response = pre ++ e :: post /\
    bind_calls (trace_of w this (both u p))
    = service_binds this ++ map (entry_bind p) (pre ++ [e]) /\
    accepted_binds (trace_of w this (both u p))
    = service_binds this ++ [entry_bind p e].
Proof.
  intros Hresult.
  destruct (run_returns_inv this u p _ Hresult)
    as (filter & response & Hsearch & Hend
        & [(Hnull & _) | (Hauth & pre & e & post & Hentries & Hb & Ha)]);
    [done|].
  injection Hauth as ->. split; [done|].
  by exists filter, response, pre, e, post.
Qed.

(** X8.  A call with both credentials returns [null] only when the
    search was answered with the status 0 and every entry of the search
    was tried, in order, with no bind for an entry accepted. *)
Theorem null_only_after_all_entries_tried this u p :
  result_of w this (both u p) = inr Null ->
  exists filter response,
    search_answers w this u filter response /\
    end_ response = inr 0%N /\
    bind_calls (trace_of w this (both u p))
    = service_binds this ++ map (entry_bind p) (searchEntry response) /\
    accepted_binds (trace_of w this (both u p)) = service_binds this.
Proof.
  intros Hresult.
  destruct (run_returns_inv this u p _ Hresult)
    as (filter & response & Hsearch & Hend
        & [(_ & Hb & Ha) | (Hauth & _)]); [|done].
  by exists filter, response.
Qed.

(** X9.  An instance that was never configured cannot authenticate:
    whatever the server does, a call with both credentials throws, and it
    makes no bind and no search. *)
Theorem unconfigured_instance_throws u p :
  exists e,
    result_of w constructor (both u p) = inl e /\
    bind_calls (trace_of w constructor (both u p)) = [] /\
    List.filter is_Search (trace_of w constructor (both u p)) = [].
Proof.
  unfold result_of, trace_of.
  destruct (createClient_throws w (_clientOpts constructor)) as [e|] eqn:Hcreate.
  { exists e. unfold run. rewrite _authenticate_session.
    unfold createClient. do 2 exec_step. rewrite Hcreate. by exec_step. }
  rewrite (run_session _ _ _ _ Hcreate).
  destruct (connect_reply w) as [e|] eqn:Hconnect.
  { exists e. unfold session_body, client_connect.
    do 2 exec_step. rewrite Hconnect. by exec_step. }
  rewrite (session_body_bound _ constructor u p Hconnect); [|done].
  eexists. exec_step. cbn [evalFilter_this _searchFilter constructor fst snd].
  split; [reflexivity|]. done.
Qed.

(** X10.  [test] with a missing user name or password fails with
    [Error('could not authenticate user')] without creating a client. *)
Theorem test_missing_credentials this credentials :
  username credentials = None \/ password credentials = None ->
  test w this credentials []
  = (inl (new_Error "could not authenticate user"),
     [Logger "require `username` and `password` to authenticate!"]).
Proof.
  intros Hmissing. rewrite test_run.
  unfold result_of, trace_of, run, _authenticate.
  destruct Hmissing as [-> | ->]; [|destruct (username credentials)]; done.
Qed.

(** X11.  [test] completes without an error only when the server has
    accepted a bind with the password given for an entry of the search;
    it does nothing on the outside but what [_authenticate] does. *)
Theorem test_passes_only_after_accepted_bind this u p tr :
  test w this (both u p) [] = (inr tt, tr) ->
  tr = trace_of w this (both u p) /\
  exists filter response pre e post,
    search_answers w this u filter response /\
    end_ response = inr 0%N /\
    searchEntry response = pre ++ e :: post /\
    accepted_binds tr = service_binds this ++ [entry_bind p e].
Proof.
  rewrite test_run.
  destruct (result_of w this (both u p)) as [e|[u'|]] eqn:Hresult;
    intros [= <-]. split; [done|].
  destruct (run_returns_inv this u p _ Hresult)
    as (filter & response & Hsearch & Hend
        & [(Hnull & _) | (_ & pre & e & post & Hentries & _ & Ha)]);
    [done|].
  by exists filter, response, pre, e, post.
Qed.

End AuthenticateOutcomes.

(** ** More about [evalFilter] *)

Lemma VAR_RE_test_cons c s :
  VAR_RE_test (String c s) = false ->
  VAR_RE_exec (String c s) = None /\ VAR_RE_test s = false.
Proof.
  cbn [VAR_RE_test]. by destruct (VAR_RE_exec (String c s)).
Qed.

(** X12.  A template in which the pattern matches nowhere is returned as
    it is, whatever the variables: nothing is looked up and nothing is
    thrown. *)
Theorem evalFilter_without_placeholder
    (filter : string) (vars : gmap string string) :
  VAR_RE_test filter = false ->
  evalFilter filter vars = inr filter.
Proof.
  rewrite evalFilter_substitute.
  induction filter as [|c s E IH|s g rest E IH] using segments_ind;
    intros Htest.
  - reflexivity.
  - apply VAR_RE_test_cons in Htest as [_ Htest].
    rewrite segments_unfold, E. cbn [substitute]. by rewrite (IH Htest).
  - destruct s as [|c s]; [done|].
    apply VAR_RE_test_cons in Htest as [Hnone _]. congruence.
Qed.

Lemma substitute_ext vars vars' segs :
  (forall g, Var g ∈ segs -> vars !! g = vars' !! g) ->
  substitute (lookup_escaped vars) segs = substitute (lookup_escaped vars') segs.
Proof.
  induction segs as [|seg segs IH]; intros Hagree; [reflexivity|].
  assert (substitute (lookup_escaped vars) segs
          = substitute (lookup_escaped vars') segs) as Htl.
  { apply IH. intros g Hg. apply Hagree. apply elem_of_cons. by right. }
  destruct seg as [c|g]; cbn [substitute]; rewrite Htl; [done|].
  unfold lookup_escaped, get_property. rewrite (Hagree g); [done|].
  apply elem_of_cons. by left.
Qed.

(** X13.  The rendering depends on the variables only through the
    values of the placeholders of the template: two variable sets that
    agree on them give the same string, or the same error. *)
Theorem evalFilter_ignores_other_variables
    (filter : string) (vars vars' : gmap string string) :
  (forall g, g ∈ placeholders filter -> vars !! g = vars' !! g) ->
  evalFilter filter vars = evalFilter filter vars'.
Proof.
  intros Hagree. rewrite !evalFilter_substitute. apply substitute_ext.
  intros g Hg. apply Hagree. by apply elem_of_placeholders.
Qed.

Lemma segments_default_filter :
  segments (DEFAULTS_filter DEFAULTS)
  = [Lit "("; Lit "u"; Lit "i"; Lit "d"; Lit "="; Var "name"; Lit ")"]%char.
Proof. vm_compute. reflexivity. Qed.

(** X14.  With the default filter, the filter of the search is
    [(uid=] followed by the escaped user name and [)], for every user
    name: the rendering cannot fail. *)
Theorem default_filter_rendering (username : string) :
  evalFilter_this (Some (DEFAULTS_filter DEFAULTS)) username
  = inr ("(uid=" +:+ escape username +:+ ")").
Proof.
  cbn [evalFilter_this]. rewrite evalFilter_substitute, segments_default_filter.
  cbn [substitute]. unfold lookup_escaped, get_property.
  rewrite lookup_singleton_eq. reflexivity.
Qed.

(** ** More about [configure] *)

Lemma read_all_spec readFile paths :
  match read_all readFile paths with
  | inr contents => Forall2 (fun path content => readFile path = inr content)
                            paths contents
  | inl e => exists path, path ∈ paths /\ readFile path = inl e
  end.
Proof.
  induction paths as [|path paths IH]; cbn [read_all]; [constructor|].
  destruct (readFile path) as [e|content] eqn:Hread.
  - exists path. split; [apply elem_of_cons; by left | done].
  - destruct (read_all readFile paths) as [e|contents].
    + destruct IH as (path' & Hin & Hread').
      exists path'. split; [apply elem_of_cons; by right | done].
    + by constructor.
Qed.

(** X15.  A [configure] that completes replaces the whole state of the
    instance: whether it completes, and the state it leaves when it does,
    do not depend on the state before, so that nothing of an earlier
    configuration (such as the credentials of a service account) is
    kept. *)
Theorem configure_replaces_state
    (readFile : string -> Error + string) (this this' : AuthLdap) (conf : Conf) :
  fst (configure readFile this conf) = fst (configure readFile this' conf) /\
  (fst (configure readFile this conf) = inr tt ->
   snd (configure readFile this conf) = snd (configure readFile this' conf)) /\
  (fst (configure readFile this conf) = inr tt ->
   _credentials (snd (configure readFile this conf)) = bind conf /\
   _searchBase (snd (configure readFile this conf)) = Some (base conf)).
Proof.
  unfold configure.
  destruct (certificateAuthorities conf) as [paths|];
    [destruct (read_all readFile paths)|]; cbn [fst snd]; done.
Qed.

Lemma read_all_first_failure readFile paths path e :
  path ∈ paths -> readFile path = inl e ->
  exists before path' after e',
    paths = before ++ path' :: after /\
    Forall (fun p => exists content, readFile p = inr content) before /\
    readFile path' = inl e' /\
    read_all readFile paths = inl e'.
Proof.
  induction paths as [|p paths IH]; [by intros ?%elem_of_nil|].
  intros Hin Hpath. cbn [read_all].
  destruct (readFile p) as [e0|content] eqn:Hp.
  - by exists [], p, paths, e0.
  - apply elem_of_cons in Hin as [->|Hin]; [congruence|].
    destruct (IH Hin Hpath) as (before & path' & after & e' & -> & Hbefore & Hfail & ->).
    exists (p :: before), path', after, e'.
    split; [done|]. split; [|done].
    constructor; [by exists content | done].
Qed.

(** X16.  When the call [readFile(path)] throws for one of the
    certificate files, [configure] throws, with the error of the first
    path, in the order of the list, whose call throws, and the instance
    is left half configured: the client options are the new ones, with
    the new address and without [ca], while the credentials, the base and
    the filter of the search are still those of before. *)
Theorem configure_failure_is_partial
    (readFile : string -> Error + string) (this : AuthLdap) (conf : Conf)
    (paths : list string) (path : string) (e : Error) :
  certificateAuthorities conf = Some paths ->
  path ∈ paths ->
  readFile path = inl e ->
  (exists before path' after e',
     paths = before ++ path' :: after /\
     Forall (fun p => exists content, readFile p = inr content) before /\
     readFile path' = inl e' /\
     fst (configure readFile this conf) = inl e') /\
  (exists opts,
     _clientOpts (snd (configure readFile this conf)) = Some opts /\
     url opts = uri conf /\ ca (tlsOptions opts) = None) /\
  _credentials (snd (configure readFile this conf)) = _credentials this /\
  _searchBase (snd (configure readFile this conf)) = _searchBase this /\
  _searchFilter (snd (configure readFile this conf)) = _searchFilter this.
Proof.
  intros Hconf Hin Hpath.
  destruct (read_all_first_failure readFile paths path e Hin Hpath)
    as (before & path' & after & e' & Hpaths & Hbefore & Hfail & Hread).
  unfold configure. rewrite Hconf, Hread. cbn [fst snd].
  split; [by exists before, path', after, e'|].
  split; [|done].
  eexists. split; [reflexivity|]. by destruct (bind conf).
Qed.

(** ** [configure], then [_authenticate] *)

Section ConfiguredInstance.

Variable w : World.

Ltac extends_step :=
  first [ apply only_inner_ret | apply only_inner_throw
        | apply only_inner_lift | apply only_inner_client_bind
        | apply only_inner_emit; done
        | apply only_inner_try_entries
        | apply only_inner_bindM; [|intros ?]
        | match goal with
          | |- only_inner (match ?x with _ => _ end) => destruct x
          end ].

Lemma only_inner_after_search u p response :
  only_inner (after_search w u p response).
Proof. unfold after_search, logger. repeat extends_step. Qed.

(** X18.  After a [configure] that completes for a configuration
    without [filter], a call of [_authenticate] creates the client,
    connects, binds as the service account of the configuration if there
    is one, and then searches the [base] of the configuration, in the
    whole subtree, with the filter [(uid=<escaped user name>)]. *)
Theorem configured_instance_searches
    (readFile : string -> Error + string) (this0 this : AuthLdap) (conf : Conf)
    (u p : string) (response : Response) :
  this = snd (configure readFile this0 conf) ->
  fst (configure readFile this0 conf) = inr tt ->
  filter conf = None ->
  createClient_throws w (_clientOpts this) = None ->
  connect_reply w = None ->
  (forall b, bind conf = Some b ->
             bind_reply w 0 (dn b) (bind_password b) = None) ->
  search_reply w (Some (base conf)) ("(uid=" +:+ escape u +:+ ")")
    = inr response ->
  service_binds this
    = match bind conf with
      | Some b => [(dn b, bind_password b)]
      | None => []
      end /\
  exists rest,
    trace_of w this (both u p)
    = CreateClient (_clientOpts this) :: Connect :: service_events this
      ++ [Logger "searching for entries...";
          Search (Some (base conf)) "sub" ("(uid=" +:+ escape u +:+ ")")]
      ++ rest.
Proof.
  intros Hthis Hdone Hfilter Hcreate Hconnect Hservice Hsearch.
  assert (_credentials this = bind conf /\ _searchBase this = Some (base conf)
          /\ _searchFilter this = Some (DEFAULTS_filter DEFAULTS))
    as (Hc & Hbase & Hf).
  { subst this. revert Hdone. unfold configure. rewrite Hfilter.
    destruct (certificateAuthorities conf) as [paths|];
      [destruct (read_all readFile paths)|]; cbn [fst snd]; done. }
  split; [unfold service_binds; by rewrite Hc|].
  assert (search_answers w this u ("(uid=" +:+ escape u +:+ ")") response)
    as Hanswers.
  { split; [done|]. split; [done|]. split.
    - intros c. rewrite Hc. apply Hservice.
    - rewrite Hf, Hbase. split; [|done].
      cbn [evalFilter_this].
      rewrite evalFilter_substitute, segments_default_filter.
      cbn [substitute]. unfold lookup_escaped, get_property.
      by rewrite lookup_singleton_eq. }
  unfold trace_of. rewrite (run_search_answers _ _ _ _ _ _ Hanswers).
  unfold try_finally.
  destruct (only_inner_after_search u p response
              (search_events this ("(uid=" +:+ escape u +:+ ")")
                 (searchEntry response))) as (tr' & Htr & _).
  destruct (after_search w u p response _) as [r tr1].
  cbn [snd] in Htr. subst tr1. unfold client_unbind, emit. cbn [snd].
  exists (map (fun _ => Logger ".") (searchEntry response) ++ tr' ++ [Unbind]).
  unfold search_events. rewrite Hbase.
  cbn [app]. rewrite <- !app_assoc. reflexivity.
Qed.

End ConfiguredInstance.

(** ** The store mixin *)

(** X19.  With a callback, [has] answers [true] exactly when [get]
    finds a value and [false] exactly when [get] fails with an error
    marked [notFound]; it passes an error to the callback exactly when
    [get] fails otherwise, and the error is that of [get]: a missing key
    is never reported as an error.  What [get] does without a callback
    plays no part. *)
Theorem _levelHas_callback {V : Type}
    (got : LevelError + V) (thrown : option LevelError) :
  (_levelHas got thrown true = Called (cb_result true)
   <-> exists value, got = inr value) /\
  (_levelHas got thrown true = Called (cb_result false)
   <-> exists error, got = inl error /\ notFound error = true) /\
  (forall error,
     _levelHas got thrown true = Called (cb_error error)
     <-> got = inl error /\ notFound error = false) /\
  (forall b, _levelHas got thrown true <> Returned b) /\
  (forall error, _levelHas got thrown true <> Threw error).
Proof.
  unfold _levelHas.
  destruct got as [e|v]; [destruct (notFound e) eqn:Hnf|].
  - split; [split; [done | by intros [? ?]]|].
    split; [split; [by exists e | done]|].
    split; [|done].
    intros error; split; [done|]. intros [[= <-] ?]. congruence.
  - split; [split; [done | by intros [? ?]]|].
    split; [split; [done | intros (? & [= <-] & ?); congruence]|].
    split; [|done].
    intros error; split; [by intros [= <-] | by intros [[= <-] ?]].
  - split; [split; [by exists v | done]|].
    split; [split; [done | by intros (? & ? & ?)]|].
    split; [|done].
    intros error; split; [done | by intros [? ?]].
Qed.

(** X20.  Without a callback, [has] goes by what the call
    [this.get(key)] does, and by nothing else: it returns [true] exactly
    when the call returns, [false] exactly when the call throws an error
    marked [notFound], and throws exactly when the call throws another
    error, which is the error it throws.  It need not agree with [has]
    given a callback: when [get] reports a missing key to its callback
    only, and does not throw, [has] without a callback returns [true] for
    a key of which [has] with a callback answers [false]. *)
Theorem _levelHas_direct {V : Type}
    (got : LevelError + V) (thrown : option LevelError) :
  (_levelHas got thrown false = Returned true <-> thrown = None) /\
  (_levelHas got thrown false = Returned false
   <-> exists error, thrown = Some error /\ notFound error = true) /\
  (forall error,
     _levelHas got thrown false = Threw error
     <-> thrown = Some error /\ notFound error = false) /\
  (forall args, _levelHas got thrown false <> Called args) /\
  (forall error : LevelError,
     notFound error = true ->
     _levelHas (inl error : LevelError + V) None true = Called (cb_result false) /\
     _levelHas (inl error : LevelError + V) None false = Returned true).
Proof.
  unfold _levelHas.
  split; [|split; [|split; [|split]]].
  - destruct thrown as [e|]; [|done]. by destruct (notFound e).
  - destruct thrown as [e|]; [|split; [done | by intros (? & ? & ?)]].
    destruct (notFound e) eqn:Hnf; cbn [negb].
    + split; [by exists e | done].
    + split; [done | intros (? & [= <-] & ?); congruence].
  - intros error. destruct thrown as [e|]; [|split; [done | by intros [? ?]]].
    destruct (notFound e) eqn:Hnf; cbn [negb].
    + split; [done | intros [[= <-] ?]; congruence].
    + split; [by intros [= <-] | by intros [[= <-] ?]].
  - intros args. destruct thrown as [e|]; [|done]. by destruct (notFound e).
  - intros error ->. done.
Qed.

Lemma endsWith_spec name suffix :
  endsWith name suffix = true <-> exists pre, name = pre +:+ suffix.
Proof.
  induction name as [|c name IH]; cbn [endsWith].
  - rewrite orb_false_r, String.eqb_eq. split.
    + intros <-. by exists "".
    + intros [[|c pre] Hpre]; [done|]. by rewrite append_cons in Hpre.
  - rewrite orb_true_iff, String.eqb_eq, IH. split.
    + intros [<- | [pre ->]]; [by exists ""|].
      exists (String c pre). by rewrite append_cons.
    + intros [[|c' pre] Hpre]; [by left|].
      rewrite append_cons in Hpre. injection Hpre as <- ->.
      right. by exists pre.
Qed.

Lemma startsWith_spec name prefix :
  startsWith name prefix = true <-> exists rest, name = prefix +:+ rest.
Proof.
  unfold startsWith, starts_with.
  destruct (strip_prefix prefix name) as [rest|] eqn:E.
  - apply strip_prefix_Some in E. split; [by exists rest | done].
  - split; [done|]. intros [rest Hrest].
    apply strip_prefix_Some in Hrest. congruence.
Qed.

Section StoreProperties.

Context {F D : Type}.

Variable has : F.

Lemma levelPromise_lookup (db : gmap string (Property F D)) name :
  levelPromise db !! name
  = match db !! name with
    | Some (Fn f) =>
        if endsWith name "Stream" || startsWith name "is"
        then Some (Bound f)
        else Some (Promisified f)
    | _ => None
    end.
Proof.
  unfold levelPromise. rewrite map_lookup_imap.
  by destruct (db !! name) as [[f|d]|].
Qed.

(** X21.  [levelPromise] keeps exactly the properties of the database
    that are functions, under their names: one whose name ends with
    [Stream] or starts with [is] is bound to the database, any other is
    promisified; a property that is not a function is left out. *)
Theorem levelPromise_methods (db : gmap string (Property F D)) (name : string) :
  (is_Some (levelPromise db !! name) <-> exists f, db !! name = Some (Fn f)) /\
  (forall f,
     levelPromise db !! name = Some (Bound f)
     <-> db !! name = Some (Fn f) /\
         ((exists pre, name = pre +:+ "Stream") \/
          (exists rest, name = "is" +:+ rest))) /\
  (forall f,
     levelPromise db !! name = Some (Promisified f)
     <-> db !! name = Some (Fn f) /\
         ~ ((exists pre, name = pre +:+ "Stream") \/
            (exists rest, name = "is" +:+ rest))).
Proof.
  rewrite levelPromise_lookup.
  assert (endsWith name "Stream" || startsWith name "is" = true
          <-> (exists pre, name = pre +:+ "Stream") \/
              (exists rest, name = "is" +:+ rest)) as Hrule
    by (by rewrite orb_true_iff, endsWith_spec, startsWith_spec).
  destruct (db !! name) as [[f|d]|].
  - destruct (endsWith name "Stream" || startsWith name "is").
    + pose proof (proj1 Hrule eq_refl) as Hyes.
      split; [split; [by exists f | by eexists]|].
      split; intros g; split; try (intros [= <-]; done);
        try (intros [[= <-] ?]; done).
    + assert (~ ((exists pre, name = pre +:+ "Stream") \/
                 (exists rest, name = "is" +:+ rest))) as Hno
        by (intros H; apply Hrule in H; done).
      split; [split; [by exists f | by eexists]|].
      split; intros g; split; try (intros [= <-]; done);
        try (intros [[= <-] ?]; done).
  - split; [split; [by intros [? ?] | by intros [? ?]]|].
    split; intros g; split; try done; by intros [? ?].
  - split; [split; [by intros [? ?] | by intros [? ?]]|].
    split; intros g; split; try done; by intros [? ?].
Qed.

(** X22.  A store always has the method [has], promisified, and it is
    [_levelHas] whatever [has] the sublevel had; its other methods are
    those [levelPromise] makes of the sublevel. *)
Theorem getStore_has
    (sublevel : string -> gmap string (Property F D)) (namespace : string) :
  getStore has sublevel namespace !! "has" = Some (Promisified has) /\
  (forall name, name <> "has" ->
     getStore has sublevel namespace !! name
     = levelPromise (sublevel namespace) !! name).
Proof.
  unfold getStore, levelHas. split.
  - rewrite levelPromise_lookup, lookup_insert_eq. reflexivity.
  - intros name Hname. rewrite !levelPromise_lookup, lookup_insert_ne; done.
Qed.

End StoreProperties.

(** ** The effects of the smart backup form *)

(** X23.  [onKeyDown] prevents the default action exactly for the keys
    13 and 27; it adds a tag only for the key 13 and a value that is not
    empty, and the tag is that value; it stops the editing exactly for
    the key 27; for any other key it does nothing. *)
Theorem onKeyDown_steps (keyCode : Z) (target_value : string) :
  (call_preventDefault ∈ onKeyDown keyCode target_value
   <-> keyCode = 13%Z \/ keyCode = 27%Z) /\
  (forall value,
     call_addTag value ∈ onKeyDown keyCode target_value
     <-> keyCode = 13%Z /\ value = target_value /\ target_value <> "") /\
  (call_stopEditTag ∈ onKeyDown keyCode target_value <-> keyCode = 27%Z) /\
  (keyCode <> 13%Z -> keyCode <> 27%Z -> onKeyDown keyCode target_value = []).
Proof.
  unfold onKeyDown.
  destruct (Z.eqb_spec keyCode 13) as [->|H13];
    [destruct (String.eqb_spec target_value "") as [->|Hne]; cbn [negb app]
    |destruct (Z.eqb_spec keyCode 27) as [->|H27]];
    (split; [|split; [intros value|split]]);
    rewrite ?elem_of_cons, ?elem_of_nil;
    intuition (try congruence; try discriminate).
Qed.

(** X24.  In the course of a key event [setTagValues] is called at most
    once, and only for the key 13 with a value that is not empty: the
    list it gets is the list of tags so far (empty when [undefined]) with
    the value added at the end.  No empty tag is ever added. *)
Theorem key_event_adds_one_tag
    (tags_values : option (list string)) (keyCode : Z) (target_value : string) :
  length (setTagValues_calls tags_values keyCode target_value) <= 1 /\
  (forall values,
     values ∈ setTagValues_calls tags_values keyCode target_value ->
     keyCode = 13%Z /\ target_value <> "" /\
     values = default [] tags_values ++ [target_value] /\
     ("" ∉ default [] tags_values -> "" ∉ values)).
Proof.
  unfold setTagValues_calls, onKeyDown.
  destruct (Z.eqb_spec keyCode 13) as [->|H13].
  - destruct (String.eqb_spec target_value "") as [->|Hne]; cbn.
    + split; [lia|]. by intros values ?%elem_of_nil.
    + split; [lia|]. intros values Hin.
      apply elem_of_cons in Hin as [->|Hin]; [|by apply elem_of_nil in Hin].
      split; [done|]. split; [done|].
      assert (addTag tags_values target_value
              = default [] tags_values ++ [target_value]) as ->
        by (by destruct tags_values).
      split; [done|]. intros Hold.
      rewrite not_elem_of_app, not_elem_of_cons. split; [done|].
      split; [done | apply not_elem_of_nil].
  - destruct (Z.eqb_spec keyCode 27) as [->|H27]; cbn;
      (split; [lia|]); by intros values ?%elem_of_nil.
Qed.

(** ** Witnesses *)

Lemma createClient_failure_propagates_witness :
  result_of (sample_world nobody_accepts 0) constructor alice_secret
  = inl (mkError TypeError "options (object) required") /\
  trace_of (sample_world nobody_accepts 0) constructor alice_secret
  = [CreateClient (_clientOpts constructor)].
Proof.
  apply (createClient_failure_propagates (sample_world nobody_accepts 0)
           constructor "alice" "secret").
  reflexivity.
Defined.

Lemma connect_failure_propagates_witness :
  result_of (failing_world (Some connection_reset) (inr (two_entries 0)))
    sample_this alice_secret = inl connection_reset /\
  trace_of (failing_world (Some connection_reset) (inr (two_entries 0)))
    sample_this alice_secret
  = [CreateClient (_clientOpts sample_this); Connect; Unbind].
Proof.
  apply (connect_failure_propagates
           (failing_world (Some connection_reset) (inr (two_entries 0)))
           sample_this "alice" "secret"); reflexivity.
Defined.

Lemma service_bind_failure_propagates_witness :
  result_of (sample_world nobody_accepts 0) wrong_service_this alice_secret
  = inl invalid_credentials /\
  trace_of (sample_world nobody_accepts 0) wrong_service_this alice_secret
  = [CreateClient (_clientOpts wrong_service_this); Connect;
     Logger ("attempting to bind with as " +:+ "svc" +:+ "...");
     Bind "svc" "wrong" (Some invalid_credentials);
     Unbind].
Proof.
  apply (service_bind_failure_propagates (sample_world nobody_accepts 0)
           wrong_service_this "alice" "secret"
           {| dn := "svc"; bind_password := "wrong" |}); reflexivity.
Defined.

Lemma filter_failure_propagates_witness :
  result_of (sample_world nobody_accepts 0) login_filter_this alice_secret
  = inl (new_Error "invalid variable: login") /\
  trace_of (sample_world nobody_accepts 0) login_filter_this alice_secret
  = bound_events login_filter_this ++ [Unbind] /\
  List.filter is_Search
    (trace_of (sample_world nobody_accepts 0) login_filter_this alice_secret)
  = [].
Proof.
  apply (filter_failure_propagates (sample_world nobody_accepts 0)
           login_filter_this "alice" "secret").
  - reflexivity.
  - reflexivity.
  - intros c [=].
  - vm_compute. reflexivity.
Defined.

Lemma search_failure_propagates_witness :
  result_of (failing_world None (inl connection_reset)) sample_this alice_secret
  = inl connection_reset /\
  trace_of (failing_world None (inl connection_reset)) sample_this alice_secret
  = bound_events sample_this
    ++ [Search (_searchBase sample_this) "sub" "(uid=alice)"; Unbind] /\
  bind_calls
    (trace_of (failing_world None (inl connection_reset)) sample_this alice_secret)
  = service_binds sample_this.
Proof.
  apply (search_failure_propagates (failing_world None (inl connection_reset))
           sample_this "alice" "secret" "(uid=alice)").
  - reflexivity.
  - reflexivity.
  - intros c _. reflexivity.
  - vm_compute. reflexivity.
  - reflexivity.
Defined.

Lemma search_error_event_propagates_witness :
  result_of
    (failing_world None
       (inr {| searchEntry := [alice]; end_ := inl connection_reset |}))
    sample_this alice_secret
  = inl connection_reset /\
  trace_of
    (failing_world None
       (inr {| searchEntry := [alice]; end_ := inl connection_reset |}))
    sample_this alice_secret
  = search_events sample_this "(uid=alice)" [alice] ++ [Unbind] /\
  bind_calls
    (trace_of
       (failing_world None
          (inr {| searchEntry := [alice]; end_ := inl connection_reset |}))
       sample_this alice_secret)
  = service_binds sample_this.
Proof.
  apply (search_error_event_propagates
           (failing_world None
              (inr {| searchEntry := [alice]; end_ := inl connection_reset |}))
           sample_this "alice" "secret" "(uid=alice)"
           {| searchEntry := [alice]; end_ := inl connection_reset |}).
  - repeat split.
  - reflexivity.
Defined.

Lemma authenticated_only_after_accepted_bind_witness :
  "alice" = "alice" /\
  exists filter response pre e post,
    search_answers (sample_world second_accepts 0) sample_this "alice"
      filter response /\
    end_ response = inr 0%N /\
    searchEntry response = pre ++ e :: post /\
    bind_calls (trace_of (sample_world second_accepts 0) sample_this alice_secret)
    = service_binds sample_this ++ map (entry_bind "secret") (pre ++ [e]) /\
    accepted_binds (trace_of (sample_world second_accepts 0) sample_this
                      alice_secret)
    = service_binds sample_this ++ [entry_bind "secret" e].
Proof.
  apply (authenticated_only_after_accepted_bind (sample_world second_accepts 0)
           sample_this "alice" "secret" "alice").
  vm_compute. reflexivity.
Defined.

Lemma null_only_after_all_entries_tried_witness :
  exists filter response,
    search_answers (sample_world nobody_accepts 0) sample_this "alice"
      filter response /\
    end_ response = inr 0%N /\
    bind_calls (trace_of (sample_world nobody_accepts 0) sample_this alice_secret)
    = service_binds sample_this
      ++ map (entry_bind "secret") (searchEntry response) /\
    accepted_binds (trace_of (sample_world nobody_accepts 0) sample_this
                      alice_secret)
    = service_binds sample_this.
Proof.
  apply (null_only_after_all_entries_tried (sample_world nobody_accepts 0)
           sample_this "alice" "secret").
  vm_compute. reflexivity.
Defined.

Lemma test_missing_credentials_witness :
  test (sample_world second_accepts 0) sample_this
    {| username := None; password := Some "secret" |} []
  = (inl (new_Error "could not authenticate user"),
     [Logger "require `username` and `password` to authenticate!"]).
Proof.
  apply test_missing_credentials. left. reflexivity.
Defined.

Lemma test_passes_only_after_accepted_bind_witness :
  trace_of (sample_world second_accepts 0) sample_this alice_secret
  = trace_of (sample_world second_accepts 0) sample_this (both "alice" "secret") /\
  exists filter response pre e post,
    search_answers (sample_world second_accepts 0) sample_this "alice"
      filter response /\
    end_ response = inr 0%N /\
    searchEntry response = pre ++ e :: post /\
    accepted_binds
      (trace_of (sample_world second_accepts 0) sample_this alice_secret)
    = service_binds sample_this ++ [entry_bind "secret" e].
Proof.
  apply (test_passes_only_after_accepted_bind (sample_world second_accepts 0)
           sample_this "alice" "secret").
  vm_compute. reflexivity.
Defined.

Lemma evalFilter_without_placeholder_witness :
  evalFilter "(&(objectClass=person)(cn={admin}))" {[ "name" := "bob" ]}
  = inr "(&(objectClass=person)(cn={admin}))".
Proof.
  apply evalFilter_without_placeholder. reflexivity.
Defined.

Lemma evalFilter_ignores_other_variables_witness :
  evalFilter "(uid={{name}})" {[ "name" := "bob" ]}
  = evalFilter "(uid={{name}})" (<["group" := "staff"]> {[ "name" := "bob" ]}).
Proof.
  apply evalFilter_ignores_other_variables.
  intros g Hg.
  assert (g = "name") as ->.
  { change (placeholders "(uid={{name}})") with ["name"] in Hg.
    apply elem_of_cons in Hg as [->|Hg]; [done|]. by apply elem_of_nil in Hg. }
  vm_compute. reflexivity.
Defined.

Lemma configure_failure_is_partial_witness :
  (exists before path' after e',
     ["ca.pem"; "more.pem"] = before ++ path' :: after /\
     Forall (fun p => exists content, readFile_without_callback p = inr content)
            before /\
     readFile_without_callback path' = inl e' /\
     fst (configure readFile_without_callback sample_this
            (ca_conf ["ca.pem"; "more.pem"])) = inl e') /\
  (exists opts,
     _clientOpts (snd (configure readFile_without_callback sample_this
                         (ca_conf ["ca.pem"; "more.pem"])))
     = Some opts /\
     url opts = uri (ca_conf ["ca.pem"; "more.pem"]) /\
     ca (tlsOptions opts) = None) /\
  _credentials (snd (configure readFile_without_callback sample_this
                       (ca_conf ["ca.pem"; "more.pem"])))
  = _credentials sample_this /\
  _searchBase (snd (configure readFile_without_callback sample_this
                      (ca_conf ["ca.pem"; "more.pem"])))
  = _searchBase sample_this /\
  _searchFilter (snd (configure readFile_without_callback sample_this
                        (ca_conf ["ca.pem"; "more.pem"])))
  = _searchFilter sample_this.
Proof.
  apply (configure_failure_is_partial readFile_without_callback sample_this
           (ca_conf ["ca.pem"; "more.pem"]) ["ca.pem"; "more.pem"] "more.pem"
           (mkError TypeError "Callback must be a function")).
  - reflexivity.
  - apply elem_of_cons. right. apply elem_of_cons. by left.
  - reflexivity.
Defined.

Lemma configured_instance_searches_witness :
  service_binds sample_this = [("svc", "p")] /\
  exists rest,
    trace_of (sample_world second_accepts 0) sample_this alice_secret
    = CreateClient (_clientOpts sample_this) :: Connect
      :: service_events sample_this
      ++ [Logger "searching for entries...";
          Search (Some "dc=x") "sub" ("(uid=" +:+ escape "alice" +:+ ")")]
      ++ rest.
Proof.
  apply (configured_instance_searches (sample_world second_accepts 0)
           no_files constructor sample_this sample_conf "alice" "secret"
           (two_entries 0)); try reflexivity.
  intros b [= <-]. reflexivity.
Defined.

(** ** Examples *)

(** The store of a sample sublevel: [has] is added, the streams and the
    predicates are bound, [get] is promisified, and the property that is
    not a function is gone. *)
Example getStore_sample :
  getStore 0 sample_sublevel "users"
  = {[ "has" := Promisified 0; "get" := Promisified 1;
       "createReadStream" := Bound 2; "isOpen" := Bound 3 ]}.
Proof. vm_compute. reflexivity. Qed.

(** [has] with a callback on a key that is there, on a missing key and on
    a failure; [has] without a callback when [get] returns, and when it
    throws. *)
Example _levelHas_sample :
  let missing := {| notFound := true; level_message := "Key not found" |} in
  let broken := {| notFound := false; level_message := "IO error" |} in
  _levelHas (inr 0 : LevelError + nat) None true = Called (cb_result true) /\
  _levelHas (inl missing : LevelError + nat) None true = Called (cb_result false) /\
  _levelHas (inl broken : LevelError + nat) None true = Called (cb_error broken) /\
  _levelHas (inl missing : LevelError + nat) None false = Returned true /\
  _levelHas (inl missing : LevelError + nat) (Some missing) false = Returned false /\
  _levelHas (inl broken : LevelError + nat) (Some broken) false = Threw broken.
Proof. repeat split. Qed.

(** Enter on a value, Enter on an empty input, Escape, another key. *)
Example onKeyDown_sample :
  onKeyDown 13 "prod"
    = [call_addTag "prod"; set_target_value ""; call_preventDefault] /\
  onKeyDown 13 "" = [call_preventDefault] /\
  onKeyDown 27 "prod" = [call_stopEditTag; call_preventDefault] /\
  onKeyDown 65 "prod" = [] /\
  setTagValues_calls (Some ["db"]) 13 "prod" = [["db"; "prod"]] /\
  setTagValues_calls None 13 "prod" = [["prod"]].
Proof. repeat split. Qed.
